(** * Ordered schema properties (package spec, file properties.go)

A shallow embedding of [OrderSchemaItems] and [SchemaProperties] and of
the parts of the Go runtime and standard library they call
([reflect], [sort], [encoding/json], the [orderedmap] package), followed
by the properties proved about them. *)

From Stdlib Require Import ZArith String Ascii List Lia Permutation DecimalString.
From stdpp Require Import base option list gmap strings fin_maps sorting.

Open Scope Z_scope.
Open Scope nat_scope.

(** Go's [[]byte]: a sequence of bytes.  A Go [string] is a byte sequence
    too; it is kept as [string] and written into a buffer byte by byte. *)
Abbreviation bytes := (list ascii).

Definition WriteString (buf : bytes) (s : string) : bytes :=
  buf ++ list_ascii_of_string s.

(** The byte 0x22, the double quote. *)
Definition dquote : ascii := "034"%char.
Definition backslash : ascii := "092"%char.

(** ** Panics

A Go expression either yields a value or panics.  [recover] in a
deferred function turns the panic of the body into a normal return. *)

Inductive exn (A : Type) : Type :=
| Val (a : A)
| Panic (msg : string).
Arguments Val {A} a.
Arguments Panic {A} msg.

#[global] Instance exn_ret : MRet exn := @Val.
#[global] Instance exn_bind : MBind exn := λ A B f m,
  match m with
  | Val a => f a
  | Panic msg => Panic msg
  end.

Definition recovering {A} (body : exn A) (deferred : string → exn A) : exn A :=
  match body with
  | Val a => Val a
  | Panic msg => deferred msg
  end.

(** ** Dynamic values and package reflect

The value read from the extension map has a dynamic type.  [VInt] and
[VInt64] are values of signed integer kinds, [VNil] is the nil
interface, and [VOther T] is a value of any type [T] that is neither
bool, a signed integer kind nor a string kind (float64, a map, a
channel, ...); [T] is the name reflect prints for the type. *)

Inductive value : Type :=
| VNil
| VBool (b : bool)
| VInt (n : Z)
| VInt64 (n : Z)
| VString (s : string)
| VOther (T : string).

#[global] Instance value_eq_dec : EqDecision value.
Proof. solve_decision. Defined.

Module reflect.

(** [reflect.ValueOf(v).Type().String()], and what [String] prints in
    its place for the zero Value. *)
Definition type_name (v : value) : string :=
  match v with
  | VNil => "invalid"
  | VBool _ => "bool"
  | VInt _ => "int"
  | VInt64 _ => "int64"
  | VString _ => "string"
  | VOther T => T
  end.

(** [reflect.ValueOf(v).Int()]: the integer of a signed integer kind,
    a panic for every other kind. *)
Definition Int (v : value) : exn Z :=
  match v with
  | VInt n | VInt64 n => Val n
  | _ => Panic ("reflect: call of reflect.Value.Int on " +:+ type_name v +:+ " Value")
  end.

(** What [String] prints for a value that is not of a String kind:
["<T Value>"], with ["<invalid Value>"] for the zero Value. *)
Definition stringNonString (v : value) : string :=
  "<" +:+ type_name v +:+ " Value>".

(** [reflect.ValueOf(v).String()]: the string of a String kind; for any
other kind it does not panic and yields [stringNonString]. *)
Definition String (v : value) : exn string :=
  match v with
  | VString s => Val s
  | _ => Val (stringNonString v)
  end.

End reflect.

(** ** Errors

Go's [error] values that this code can see: the two error types of
encoding/json that [json.Marshal] produces around a [Marshaler], and
any other error (for instance the one a sub-schema's encoding returns). *)

Inductive error : Type :=
| SyntaxError (msg : string)
| MarshalerError (type : string) (err : error)
| OtherError (msg : string).

#[global] Instance error_eq_dec : EqDecision error.
Proof. solve_decision. Defined.

(** A Go function returning [([]byte, error)]: the bytes are nil when the
    error is set. *)
Abbreviation encoded := (bytes * option error)%type.

(** ** Package encoding/json: the scanner and [compact]

[json.Marshal] of a value whose type implements [json.Marshaler] calls
its [MarshalJSON] and passes the returned bytes through [compact], which
checks them with the scanner, drops insignificant white space and
escapes the characters that are unsafe in HTML. *)

Module json.

Inductive scan_code :=
| scanContinue | scanBeginLiteral | scanBeginObject | scanObjectKey
| scanObjectValue | scanEndObject | scanBeginArray | scanArrayValue
| scanEndArray | scanSkipSpace | scanEnd | scanError.

(** [v >= scanSkipSpace] *)
Definition ge_scanSkipSpace (v : scan_code) : bool :=
  match v with
  | scanSkipSpace | scanEnd | scanError => true
  | _ => false
  end.

Inductive parse_state := parseObjectKey | parseObjectValue | parseArrayValue.

(** The value of the scanner's [step] field. *)
Inductive step_fn :=
| AtBeginValueOrEmpty | AtBeginValue | AtBeginStringOrEmpty | AtBeginString
| AtEndValue | AtEndTop | AtInString | AtInStringEsc
| AtInStringEscU | AtInStringEscU1 | AtInStringEscU12 | AtInStringEscU123
| AtNeg | At1 | At0 | AtDot | AtDot0 | AtE | AtESign | AtE0
| AtT | AtTr | AtTru | AtF | AtFa | AtFal | AtFals | AtN | AtNu | AtNul
| AtError.

(** The scanner; the top of [parseState] is the head of the list. *)
Record scanner := mkScanner {
  step : step_fn;
  endTop : bool;
  parseState : list parse_state;
  err : option error
}.

Definition newScanner : scanner := mkScanner AtBeginValue false [] None.

Definition maxNestingDepth : Z := 10000.

Definition isSpace (c : ascii) : bool :=
  Ascii.eqb c " " || Ascii.eqb c "009" || Ascii.eqb c "013" || Ascii.eqb c "010".

Definition between (lo hi c : ascii) : bool :=
  (N_of_ascii lo <=? N_of_ascii c)%N && (N_of_ascii c <=? N_of_ascii hi)%N.

Definition isDigit (c : ascii) : bool := between "0" "9" c.
Definition isHex (c : ascii) : bool :=
  isDigit c || between "a" "f" c || between "A" "F" c.

Definition goto (s : scanner) (st : step_fn) : scanner :=
  mkScanner st (endTop s) (parseState s) (err s).

(** [s.error(c, context)] *)
Definition scan_error (s : scanner) (c : ascii) (context : string) : scanner * scan_code :=
  (mkScanner AtError (endTop s) (parseState s)
     (Some (SyntaxError ("invalid character '" +:+ String c "" +:+ "' " +:+ context))),
   scanError).

Definition pushParseState (s : scanner) (st : step_fn) (c : ascii)
    (newParseState : parse_state) (successState : scan_code) : scanner * scan_code :=
  let s' := mkScanner st (endTop s) (newParseState :: parseState s) (err s) in
  if (Z.of_nat (length (parseState s')) <=? maxNestingDepth)%Z
  then (s', successState)
  else scan_error s' c "exceeded max depth".

Definition popParseState (s : scanner) : scanner :=
  match tail (parseState s) with
  | [] => mkScanner AtEndTop true [] (err s)
  | rest => mkScanner AtEndValue (endTop s) rest (err s)
  end.

Definition stateEndTop (s : scanner) (c : ascii) : scanner * scan_code :=
  if isSpace c then (s, scanEnd)
  else (fst (scan_error s c "after top-level value"), scanEnd).

Definition stateEndValue (s : scanner) (c : ascii) : scanner * scan_code :=
  match parseState s with
  | [] => stateEndTop (mkScanner AtEndTop true [] (err s)) c
  | ps :: below =>
    if isSpace c then (goto s AtEndValue, scanSkipSpace) else
    match ps with
    | parseObjectKey =>
      if Ascii.eqb c ":"
      then (mkScanner AtBeginValue (endTop s) (parseObjectValue :: below) (err s), scanObjectKey)
      else scan_error s c "after object key"
    | parseObjectValue =>
      if Ascii.eqb c ","
      then (mkScanner AtBeginString (endTop s) (parseObjectKey :: below) (err s), scanObjectValue)
      else if Ascii.eqb c "}" then (popParseState s, scanEndObject)
      else scan_error s c "after object key:value pair"
    | parseArrayValue =>
      if Ascii.eqb c "," then (goto s AtBeginValue, scanArrayValue)
      else if Ascii.eqb c "]" then (popParseState s, scanEndArray)
      else scan_error s c "after array element"
    end
  end.

Definition stateBeginValue (s : scanner) (c : ascii) : scanner * scan_code :=
  if isSpace c then (s, scanSkipSpace)
  else if Ascii.eqb c "{" then pushParseState s AtBeginStringOrEmpty c parseObjectKey scanBeginObject
  else if Ascii.eqb c "[" then pushParseState s AtBeginValueOrEmpty c parseArrayValue scanBeginArray
  else if Ascii.eqb c dquote then (goto s AtInString, scanBeginLiteral)
  else if Ascii.eqb c "-" then (goto s AtNeg, scanBeginLiteral)
  else if Ascii.eqb c "0" then (goto s At0, scanBeginLiteral)
  else if Ascii.eqb c "t" then (goto s AtT, scanBeginLiteral)
  else if Ascii.eqb c "f" then (goto s AtF, scanBeginLiteral)
  else if Ascii.eqb c "n" then (goto s AtN, scanBeginLiteral)
  else if between "1" "9" c then (goto s At1, scanBeginLiteral)
  else scan_error s c "looking for beginning of value".

Definition stateBeginValueOrEmpty (s : scanner) (c : ascii) : scanner * scan_code :=
  if isSpace c then (s, scanSkipSpace)
  else if Ascii.eqb c "]" then stateEndValue s c
  else stateBeginValue s c.

Definition stateBeginString (s : scanner) (c : ascii) : scanner * scan_code :=
  if isSpace c then (s, scanSkipSpace)
  else if Ascii.eqb c dquote then (goto s AtInString, scanBeginLiteral)
  else scan_error s c "looking for beginning of object key string".

Definition stateBeginStringOrEmpty (s : scanner) (c : ascii) : scanner * scan_code :=
  if isSpace c then (s, scanSkipSpace)
  else if Ascii.eqb c "}"
  then stateEndValue
         (mkScanner (step s) (endTop s) (parseObjectValue :: tail (parseState s)) (err s)) c
  else stateBeginString s c.

Definition stateInString (s : scanner) (c : ascii) : scanner * scan_code :=
  if Ascii.eqb c dquote then (goto s AtEndValue, scanContinue)
  else if Ascii.eqb c backslash then (goto s AtInStringEsc, scanContinue)
  else if (N_of_ascii c <? 32)%N then scan_error s c "in string literal"
  else (s, scanContinue).

Definition stateInStringEsc (s : scanner) (c : ascii) : scanner * scan_code :=
  if Ascii.eqb c "b" || Ascii.eqb c "f" || Ascii.eqb c "n" || Ascii.eqb c "r"
     || Ascii.eqb c "t" || Ascii.eqb c backslash || Ascii.eqb c "/" || Ascii.eqb c dquote
  then (goto s AtInString, scanContinue)
  else if Ascii.eqb c "u" then (goto s AtInStringEscU, scanContinue)
  else scan_error s c "in string escape code".

(** [stateInStringEscU], [..U1], [..U12], [..U123]: one hexadecimal digit each. *)
Definition stateInStringEscHex (next : step_fn) (s : scanner) (c : ascii) : scanner * scan_code :=
  if isHex c then (goto s next, scanContinue)
  else scan_error s c "in \u hexadecimal character escape".

Definition state0 (s : scanner) (c : ascii) : scanner * scan_code :=
  if Ascii.eqb c "." then (goto s AtDot, scanContinue)
  else if Ascii.eqb c "e" || Ascii.eqb c "E" then (goto s AtE, scanContinue)
  else stateEndValue s c.

Definition state1 (s : scanner) (c : ascii) : scanner * scan_code :=
  if isDigit c then (goto s At1, scanContinue) else state0 s c.

Definition stateNeg (s : scanner) (c : ascii) : scanner * scan_code :=
  if Ascii.eqb c "0" then (goto s At0, scanContinue)
  else if between "1" "9" c then (goto s At1, scanContinue)
  else scan_error s c "in numeric literal".

Definition stateDot (s : scanner) (c : ascii) : scanner * scan_code :=
  if isDigit c then (goto s AtDot0, scanContinue)
  else scan_error s c "after decimal point in numeric literal".

Definition stateDot0 (s : scanner) (c : ascii) : scanner * scan_code :=
  if isDigit c then (s, scanContinue)
  else if Ascii.eqb c "e" || Ascii.eqb c "E" then (goto s AtE, scanContinue)
  else stateEndValue s c.

Definition stateESign (s : scanner) (c : ascii) : scanner * scan_code :=
  if isDigit c then (goto s AtE0, scanContinue)
  else scan_error s c "in exponent of numeric literal".

Definition stateE (s : scanner) (c : ascii) : scanner * scan_code :=
  if Ascii.eqb c "+" || Ascii.eqb c "-" then (goto s AtESign, scanContinue)
  else stateESign s c.

Definition stateE0 (s : scanner) (c : ascii) : scanner * scan_code :=
  if isDigit c then (s, scanContinue) else stateEndValue s c.

(** The states inside the literals [true], [false] and [null]: the byte
    [want] moves to [next], any other byte is an error. *)
Definition stateLiteral (want : ascii) (next : step_fn) (context : string)
    (s : scanner) (c : ascii) : scanner * scan_code :=
  if Ascii.eqb c want then (goto s next, scanContinue) else scan_error s c context.

(** [s.step(s, c)] *)
Definition run_step (s : scanner) (c : ascii) : scanner * scan_code :=
  match step s with
  | AtBeginValueOrEmpty => stateBeginValueOrEmpty s c
  | AtBeginValue => stateBeginValue s c
  | AtBeginStringOrEmpty => stateBeginStringOrEmpty s c
  | AtBeginString => stateBeginString s c
  | AtEndValue => stateEndValue s c
  | AtEndTop => stateEndTop s c
  | AtInString => stateInString s c
  | AtInStringEsc => stateInStringEsc s c
  | AtInStringEscU => stateInStringEscHex AtInStringEscU1 s c
  | AtInStringEscU1 => stateInStringEscHex AtInStringEscU12 s c
  | AtInStringEscU12 => stateInStringEscHex AtInStringEscU123 s c
  | AtInStringEscU123 => stateInStringEscHex AtInString s c
  | AtNeg => stateNeg s c
  | At1 => state1 s c
  | At0 => state0 s c
  | AtDot => stateDot s c
  | AtDot0 => stateDot0 s c
  | AtE => stateE s c
  | AtESign => stateESign s c
  | AtE0 => stateE0 s c
  | AtT => stateLiteral "r" AtTr "in literal true (expecting 'r')" s c
  | AtTr => stateLiteral "u" AtTru "in literal true (expecting 'u')" s c
  | AtTru => stateLiteral "e" AtEndValue "in literal true (expecting 'e')" s c
  | AtF => stateLiteral "a" AtFa "in literal false (expecting 'a')" s c
  | AtFa => stateLiteral "l" AtFal "in literal false (expecting 'l')" s c
  | AtFal => stateLiteral "s" AtFals "in literal false (expecting 's')" s c
  | AtFals => stateLiteral "e" AtEndValue "in literal false (expecting 'e')" s c
  | AtN => stateLiteral "u" AtNu "in literal null (expecting 'u')" s c
  | AtNu => stateLiteral "l" AtNul "in literal null (expecting 'l')" s c
  | AtNul => stateLiteral "l" AtEndValue "in literal null (expecting 'l')" s c
  | AtError => (s, scanError)
  end.

(** [s.eof()]: [None] stands for [scanEnd], an error for [scanError]. *)
Definition eof (s : scanner) : option error :=
  match err s with
  | Some e => Some e
  | None =>
    if endTop s then None else
    let s' := fst (run_step s " ") in
    if endTop s' then None else
    match err s' with
    | Some e => Some e
    | None => Some (SyntaxError "unexpected end of JSON input")
    end
  end.

Definition hex (n : N) : ascii :=
  nth (N.to_nat n) (list_ascii_of_string "0123456789abcdef") "0"%char.

(** [dst.Write(src[start:i])] when [start < i]. *)
Definition flush (dst src : bytes) (start i : nat) : bytes :=
  if start <? i then dst ++ take (i - start) (drop start src) else dst.

Definition isHTML (c : ascii) : bool :=
  Ascii.eqb c "<" || Ascii.eqb c ">" || Ascii.eqb c "&".

(** The first escape of [compact]'s loop body, on the pair of [dst] and
[start]: a byte [<], [>] or [&] is written as [\u00XX]. *)
Definition escape_html (escape : bool) (src : bytes) (i : nat) (c : ascii)
    (ds : bytes * nat) : bytes * nat :=
  if escape && isHTML c
  then (flush ds.1 src ds.2 i ++ list_ascii_of_string "\u00"
          ++ [hex (N.shiftr (N_of_ascii c) 4); hex (N.land (N_of_ascii c) 15)],
        i + 1)
  else ds.

(** The second escape: the bytes E2 80 A8 and E2 80 A9 (U+2028, U+2029)
at [src[i:i+3]], with [rest' = src[i+1:]], are written as [\u202X]. *)
Definition escape_line_separator (escape : bool) (src : bytes) (i : nat) (c : ascii)
    (rest' : bytes) (ds : bytes * nat) : bytes * nat :=
  match rest' with
  | c1 :: c2 :: _ =>
    if escape && Ascii.eqb c "226" && Ascii.eqb c1 "128"
       && (Ascii.eqb c2 "168" || Ascii.eqb c2 "169")
    then (flush ds.1 src ds.2 i ++ list_ascii_of_string "\u202"
            ++ [hex (N.land (N_of_ascii c2) 15)],
          i + 3)
    else ds
  | _ => ds
  end.

(** The loop of [compact] over [src], at index [i] with [rest = src[i:]].
It returns the scanner, the destination buffer and [start]; the [break]
on [scanError] leaves the loop at once. *)
Fixpoint compact_loop (escape : bool) (src : bytes) (i : nat) (rest : bytes)
    (scan : scanner) (dst : bytes) (start : nat) : scanner * bytes * nat :=
  match rest with
  | [] => (scan, dst, start)
  | c :: rest' =>
    let ds := escape_html escape src i c (dst, start) in
    let ds := escape_line_separator escape src i c rest' ds in
    let '(scan', v) := run_step scan c in
    if ge_scanSkipSpace v then
      match v with
      | scanError => (scan', ds.1, ds.2)
      | _ => compact_loop escape src (i + 1) rest' scan' (flush ds.1 src ds.2 i) (i + 1)
      end
    else compact_loop escape src (i + 1) rest' scan' ds.1 ds.2
  end.

(** [compact(dst, src, escape)] into an empty destination: the compacted
    bytes, or the scanner's error and no bytes. *)
Definition compact (src : bytes) (escape : bool) : encoded :=
  let '(scan, dst, start) := compact_loop escape src 0 src newScanner [] 0 in
  match eof scan with
  | Some e => ([], Some e)
  | None => (if start <? length src then dst ++ drop start src else dst, None)
  end.

(** The interface [json.Marshaler], with the name of the implementing
    type that [MarshalerError] reports. *)
Class Marshaler (A : Type) := {
  type_name : string;
  MarshalJSON : A → encoded
}.

(** [json.Marshal(v)] for a [v] whose type implements [Marshaler]
    (the encoder's [marshalerEncoder], with HTML escaping on). *)
Definition Marshal {A} `{Marshaler A} (v : A) : encoded :=
  match MarshalJSON v with
  | (b, None) =>
    match compact b true with
    | (out, None) => (out, None)
    | (_, Some e) => ([], Some (MarshalerError type_name e))
    end
  | (_, Some e) => ([], Some (MarshalerError type_name e))
  end.

End json.

(** ** Package orderedmap (github.com/iancoleman/orderedmap)

An [OrderedMap] keeps the keys in a slice next to the map of values;
[Set] appends the key only when the map of values does not have it. *)

Module orderedmap.
Section OrderedMap.
Context {V : Type}.

Record OrderedMap := mk {
  keys : list string;
  values : gmap string V
}.

Definition New : OrderedMap := mk [] ∅.

(** [o.Set(key, value)] ([Set] is a reserved word here). *)
Definition Set_ (o : OrderedMap) (key : string) (value : V) : OrderedMap :=
  let exists_ := bool_decide (is_Some (values o !! key)) in
  mk (if exists_ then keys o else keys o ++ [key]) (<[key := value]> (values o)).

Definition Keys (o : OrderedMap) : list string := keys o.
End OrderedMap.
Arguments OrderedMap : clear implicits.
End orderedmap.

(** ** The sub-schema type

[Schema] is declared elsewhere in the package.  This file uses three
things of it: its zero value (what indexing a map by an absent key
yields), the lookup [s.Extensions.GetString(key)] of an extension, and
[json.Marshal(&s)].  The lookup returns the extension value, inspected
afterwards through package reflect, and whether it is present. *)

Class SchemaType (Schema : Type) := {
  zero_Schema : Schema;
  GetString : Schema → string → value * bool;
  Marshal_Schema : Schema → encoded
}.

(** ** OrderSchemaItems *)

Module OrderSchemaItems.
Section Items.
Context {Schema : Type} `{SchemaType Schema}.

(** [OrderSchemaItem]: a name and the embedded [Schema]. *)
Record OrderSchemaItem := Item {
  Name : string;
  embedded : Schema
}.

Abbreviation t := (list OrderSchemaItem).

(** The loop of [MarshalJSON] from index [i] on, [rest = items[i:]]. *)
Fixpoint MarshalJSON_loop (i : nat) (rest : t) (buf : bytes) : encoded :=
  match rest with
  | [] => (WriteString buf "}", None)
  | it :: rest' =>
    let buf := if 0 <? i then WriteString buf "," else buf in
    let buf := buf ++ [dquote] in
    let buf := WriteString buf (Name it) in
    let buf := buf ++ [dquote; ":"%char] in
    match Marshal_Schema (embedded it) with
    | (bs, None) => MarshalJSON_loop (i + 1) rest' (buf ++ bs)
    | (_, Some err) => ([], Some err)
    end
  end.

Definition MarshalJSON (items : t) : encoded :=
  MarshalJSON_loop 0 items (WriteString [] "{").

#[global] Instance marshaler : json.Marshaler t := {|
  json.type_name := "spec.OrderSchemaItems";
  json.MarshalJSON := MarshalJSON
|}.

(** [items[i]], which panics out of range. *)
Definition index (items : t) (i : nat) : exn OrderSchemaItem :=
  match items !! i with
  | Some it => Val it
  | None => Panic "index out of range"
  end.

Definition Len (items : t) : nat := length items.

Definition Swap (items : t) (i j : nat) : exn t :=
  a ← index items j;
  b ← index items i;
  mret (<[j := b]> (<[i := a]> items)).

Definition Less (items : t) (i j : nat) : exn bool :=
  a ← index items i;
  b ← index items j;
  let '(ii, oki) := GetString (embedded a) "x-order" in
  let '(ij, okj) := GetString (embedded b) "x-order" in
  if oki then
    if okj then
      recovering
        (x ← reflect.Int ii; y ← reflect.Int ij; mret (x <? y)%Z)
        (λ _, recovering
           (x ← reflect.String ii; y ← reflect.String ij; mret (String.ltb x y))
           (λ _, mret (String.ltb (Name a) (Name b))))
    else mret true
  else if okj then mret false
  else mret (String.ltb (Name a) (Name b)).
End Items.
Arguments OrderSchemaItem : clear implicits.
End OrderSchemaItems.

(** ** Package sort

[sort.Sort] only calls [Len], [Less] and [Swap].  On a slice of at most
six elements every release of Go runs [insertionSort] over the whole
slice; on longer slices the algorithm differs between releases.  What
is kept of it is therefore a [Sorter]: some function that permutes its
argument and agrees with [insertionSort] on short slices. *)

Module sort.
Import OrderSchemaItems.
Section Sort.
Context {Schema : Type} `{SchemaType Schema}.

(** [for j := i; j > a && data.Less(j, j-1); j-- { data.Swap(j, j-1) }] *)
Fixpoint insertionSort_inner (a j : nat) (data : list (OrderSchemaItem Schema))
    : exn (list (OrderSchemaItem Schema)) :=
  match j with
  | 0 => mret data
  | S j' =>
    if a <? j then
      lt ← Less data j j';
      if (lt : bool) then data' ← Swap data j j'; insertionSort_inner a j' data'
      else mret data
    else mret data
  end.

(** [for i := a + 1; i < b; i++ { ... }], with [count = b - i]. *)
Fixpoint insertionSort_outer (a count i : nat) (data : list (OrderSchemaItem Schema))
    : exn (list (OrderSchemaItem Schema)) :=
  match count with
  | 0 => mret data
  | S count' =>
    data' ← insertionSort_inner a i data;
    insertionSort_outer a count' (S i) data'
  end.

Definition insertionSort (data : list (OrderSchemaItem Schema)) (a b : nat)
    : exn (list (OrderSchemaItem Schema)) :=
  insertionSort_outer a (b - (a + 1)) (a + 1) data.

Record Sorter := {
  Sort : list (OrderSchemaItem Schema) → list (OrderSchemaItem Schema);
  Sort_permutes : ∀ data, Sort data ≡ₚ data;
  Sort_short : ∀ data, length data ≤ 6 → insertionSort data 0 (Len data) = Val (Sort data)
}.
End Sort.
Arguments Sorter Schema {_}.
End sort.

(** ** SchemaProperties

[Origin] is a Go map and [omap] a pointer: both are references, so the
methods, although declared on a value receiver, work on the objects the
caller's container refers to.  A state [t] holds the contents of those
two objects, [None] for nil, and a method is a computation [M] over it
that returns or panics. *)

Module SchemaProperties.
Import OrderSchemaItems.
Section Properties.
Context {Schema : Type} `{SchemaType Schema}.

Record t := mk {
  Origin : option (gmap string Schema);
  omap : option (orderedmap.OrderedMap Schema)
}.

Definition M (A : Type) : Type := t → exn A * t.

#[global] Instance M_ret : MRet M := λ A a σ, (Val a, σ).
#[global] Instance M_bind : MBind M := λ A B f m σ,
  match m σ with
  | (Val a, σ') => f a σ'
  | (Panic msg, σ') => (Panic msg, σ')
  end.

Definition get_Origin : M (option (gmap string Schema)) := λ σ, (Val (Origin σ), σ).
Definition get_omap : M (option (orderedmap.OrderedMap Schema)) := λ σ, (Val (omap σ), σ).

(** [s.Origin[k] = v]: a panic on a nil map. *)
Definition Origin_assign (k : string) (v : Schema) : M unit := λ σ,
  match Origin σ with
  | Some m => (Val (), mk (Some (<[k := v]> m)) (omap σ))
  | None => (Panic "assignment to entry in nil map", σ)
  end.

(** [s.omap.Set(k, v)]: a panic on a nil pointer. *)
Definition omap_Set (k : string) (v : Schema) : M unit := λ σ,
  match omap σ with
  | Some o => (Val (), mk (Origin σ) (Some (orderedmap.Set_ o k v)))
  | None => (Panic "invalid memory address or nil pointer dereference", σ)
  end.

(** [m[key]] for reading: the zero value on a nil map or an absent key. *)
Definition map_index (m : option (gmap string Schema)) (key : string) : Schema :=
  default zero_Schema (m ≫= (.!! key)).

(** The order in which one [range] statement visits a map: any order,
    chosen by the runtime at each execution. *)
Record range_order := {
  range : gmap string Schema → list (string * Schema);
  range_permutes : ∀ m, range m ≡ₚ map_to_list m
}.

Definition range_map (ρ : range_order) (m : option (gmap string Schema))
    : list (string * Schema) :=
  match m with
  | Some m => range ρ m
  | None => []
  end.

(** The state [NewSchemaProperties] returns a pointer to. *)
Definition NewSchemaProperties : t := mk (Some ∅) (Some orderedmap.New).

Definition Set_ (k : string) (v : Schema) : M unit :=
  Origin_assign k v;;
  omap_Set k v.

Definition Len : M nat :=
  origin ← get_Origin;
  match origin with
  | None => mret 0
  | Some m => mret (size m)
  end.

Definition ToOrderedSchemaItems (srt : sort.Sorter Schema) (ρ : range_order)
    : M (list (OrderSchemaItem Schema)) :=
  origin ← get_Origin;
  om ← get_omap;
  let items : list (OrderSchemaItem Schema) := [] in
  match om with
  | Some o =>
    let keys := orderedmap.Keys o in
    mret (foldl (λ items key, items ++ [Item key (map_index origin key)]) items keys)
  | None =>
    let items := foldl (λ items '(k, v), items ++ [Item k v]) items (range_map ρ origin) in
    mret (sort.Sort srt items)
  end.

Definition MarshalJSON (srt : sort.Sorter Schema) (ρ : range_order) : M encoded :=
  origin ← get_Origin;
  match origin with
  | None => mret (list_ascii_of_string "null", None)
  | Some _ =>
    items ← ToOrderedSchemaItems srt ρ;
    mret (json.Marshal items)
  end.

(** The containers the exported interface builds: the constructor's,
    and whatever [Set_] makes of one of them. *)
Inductive built : t → Prop :=
| built_New : built NewSchemaProperties
| built_Set σ k v σ' : built σ → Set_ k v σ = (Val (), σ') → built σ'.
End Properties.
Arguments t : clear implicits.
Arguments range_order : clear implicits.
End SchemaProperties.

(** ** A small sub-schema type for examples

Modelled from the spec: the type [Schema], its extension lookup and its
JSON encoding are declared outside properties.go.  Of a sub-schema the
spec says that it is an opaque value exposing an extension map from which
an ordering key may be read, that the lookup returns an optional ordering
value of whatever type and whether it is present, and that encoding it can
fail on data that cannot be encoded.  [Sample.Schema] is the least such
type: nothing but an optional [x-order] extension, encoded as the JSON
object with that one member, with an encoding error for a value of a type
that JSON cannot represent. *)

Module Sample.

Record Schema := mk { x_order : option value }.

Definition encodeByte (c : ascii) : bytes :=
  if Ascii.eqb c dquote then [backslash; dquote]
  else if Ascii.eqb c backslash then [backslash; backslash]
  else if Ascii.eqb c "010" then [backslash; "n"%char]
  else if Ascii.eqb c "013" then [backslash; "r"%char]
  else if Ascii.eqb c "009" then [backslash; "t"%char]
  else if (N_of_ascii c <? 32)%N || json.isHTML c
  then list_ascii_of_string "\u00"
         ++ [json.hex (N.shiftr (N_of_ascii c) 4); json.hex (N.land (N_of_ascii c) 15)]
  else [c].

Definition encodeString (s : string) : bytes :=
  [dquote] ++ concat (map encodeByte (list_ascii_of_string s)) ++ [dquote].

Definition encodeValue (v : value) : encoded :=
  match v with
  | VNil => (list_ascii_of_string "null", None)
  | VBool b => (list_ascii_of_string (if b then "true" else "false"), None)
  | VInt n | VInt64 n => (list_ascii_of_string (NilZero.string_of_int (Z.to_int n)), None)
  | VString s => (encodeString s, None)
  | VOther T => ([], Some (OtherError ("json: unsupported type: " +:+ T)))
  end.

Definition Marshal (s : Schema) : encoded :=
  match x_order s with
  | None => (list_ascii_of_string "{}", None)
  | Some v =>
    match encodeValue v with
    | (bs, None) =>
      (list_ascii_of_string "{" ++ encodeString "x-order" ++ [":"%char] ++ bs
         ++ list_ascii_of_string "}", None)
    | (_, Some e) => ([], Some (MarshalerError "*spec.Schema" e))
    end
  end.

#[global] Instance schema_type : SchemaType Schema := {|
  zero_Schema := mk None;
  GetString s key :=
    match x_order s with
    | Some v => if String.eqb key "x-order" then (v, true) else (VString "", false)
    | None => (VString "", false)
    end;
  Marshal_Schema := Marshal
|}.

(** Two ways for the runtime to visit a map: in the order of
    [map_to_list], and in the reverse of it. *)
Program Definition forwards : SchemaProperties.range_order Schema :=
  {| SchemaProperties.range m := map_to_list m |}.
Next Obligation. done. Qed.

Program Definition backwards : SchemaProperties.range_order Schema :=
  {| SchemaProperties.range m := reverse (map_to_list m) |}.
Next Obligation. intros m. apply reverse_Permutation. Qed.

End Sample.

(** * Properties *)

(** ** [Less], [Swap] and [insertionSort] inside the slice *)

Section SortFacts.
Import OrderSchemaItems.
Context {Schema : Type} `{SchemaType Schema}.
Implicit Types data items : list (OrderSchemaItem Schema).

Lemma index_Val items i it : items !! i = Some it → index items i = Val it.
Proof. unfold index. by intros ->. Qed.

Lemma reflect_String_Val v : ∃ s, reflect.String v = Val s.
Proof. destruct v; simpl; eauto. Qed.

(** Inside the slice [Less] returns: every panic of its body is recovered. *)
Lemma Less_returns items i j :
  i < length items → j < length items → ∃ b, Less items i j = Val b.
Proof.
  intros [a Ha]%lookup_lt_is_Some_2 [b Hb]%lookup_lt_is_Some_2.
  unfold Less. rewrite (index_Val _ _ _ Ha), (index_Val _ _ _ Hb). simpl.
  destruct (GetString (embedded a) "x-order") as [ii [|]],
           (GetString (embedded b) "x-order") as [ij [|]]; simpl; eauto.
  destruct (reflect_String_Val ii) as [si Hsi], (reflect_String_Val ij) as [sj Hsj].
  destruct (reflect.Int ii) as [x|]; simpl.
  - destruct (reflect.Int ij) as [y|]; simpl; eauto.
    rewrite Hsi, Hsj. simpl. eauto.
  - rewrite Hsi, Hsj. simpl. eauto.
Qed.

Lemma Swap_returns items i j :
  i < length items → j < length items →
  ∃ items', Swap items i j = Val items' ∧ items' ≡ₚ items.
Proof.
  intros [a Ha]%lookup_lt_is_Some_2 [b Hb]%lookup_lt_is_Some_2.
  unfold Swap. rewrite (index_Val _ _ _ Ha), (index_Val _ _ _ Hb). simpl.
  eexists; split; [reflexivity|]. by apply Permutation_insert_swap.
Qed.

Lemma insertionSort_inner_returns a j data :
  j < length data →
  ∃ data', sort.insertionSort_inner a j data = Val data' ∧ data' ≡ₚ data.
Proof.
  revert data. induction j as [|j IH]; intros data Hj; simpl; [by eauto|].
  destruct (a <? S j); [|by eauto].
  destruct (Less_returns data (S j) j) as [[|] ->]; [lia..| |]; simpl; [|by eauto].
  destruct (Swap_returns data (S j) j) as (data1 & -> & Hperm); [lia..|]. simpl.
  destruct (IH data1) as (data2 & -> & Hperm2).
  - rewrite (Permutation_length Hperm). lia.
  - eexists; split; [done|]. by rewrite Hperm2.
Qed.

Lemma insertionSort_outer_returns a count i data :
  i + count ≤ length data ∨ count = 0 →
  ∃ data', sort.insertionSort_outer a count i data = Val data' ∧ data' ≡ₚ data.
Proof.
  revert i data. induction count as [|count IH]; intros i data Hi; simpl; [by eauto|].
  destruct (insertionSort_inner_returns a i data) as (data1 & -> & Hperm); [lia|]. simpl.
  destruct (IH (S i) data1) as (data2 & -> & Hperm2).
  - left. rewrite (Permutation_length Hperm). lia.
  - eexists; split; [done|]. by rewrite Hperm2.
Qed.

(** [insertionSort] over the whole slice returns a permutation of it. *)
Lemma insertionSort_returns data :
  ∃ data', sort.insertionSort data 0 (Len data) = Val data' ∧ data' ≡ₚ data.
Proof.
  unfold sort.insertionSort, Len. apply insertionSort_outer_returns.
  destruct data; simpl; [by right | left; lia].
Qed.

(** The sorter that runs [insertionSort] whatever the length. *)
Definition insertion_Sort data : list (OrderSchemaItem Schema) :=
  match sort.insertionSort data 0 (Len data) with
  | Val data' => data'
  | Panic _ => data
  end.

Lemma insertion_Sort_permutes data : insertion_Sort data ≡ₚ data.
Proof.
  unfold insertion_Sort.
  by destruct (insertionSort_returns data) as (data' & -> & ?).
Qed.

Lemma insertion_Sort_short data :
  length data ≤ 6 → sort.insertionSort data 0 (Len data) = Val (insertion_Sort data).
Proof.
  intros _. unfold insertion_Sort.
  by destruct (insertionSort_returns data) as (data' & -> & ?).
Qed.

Definition insertion : sort.Sorter Schema :=
  {| sort.Sort := insertion_Sort;
     sort.Sort_permutes := insertion_Sort_permutes;
     sort.Sort_short := insertion_Sort_short |}.
End SortFacts.


(** ** The container's methods *)

(** Runs a method of the container: unfolds it and the monad under it. *)
Ltac run_M :=
  unfold SchemaProperties.MarshalJSON, SchemaProperties.ToOrderedSchemaItems,
    SchemaProperties.Len, SchemaProperties.Set_,
    SchemaProperties.Origin_assign, SchemaProperties.omap_Set,
    SchemaProperties.get_Origin, SchemaProperties.get_omap,
    mbind, SchemaProperties.M_bind, mret, SchemaProperties.M_ret;
  simpl.

Section ContainerFacts.
Import OrderSchemaItems SchemaProperties.
Context {Schema : Type} `{SchemaType Schema}.
Implicit Types (σ : SchemaProperties.t Schema) (m : gmap string Schema).
Implicit Types (o : orderedmap.OrderedMap Schema) (k : string) (v : Schema).
Implicit Types (srt : sort.Sorter Schema) (ρ : range_order Schema).

(** The loop [items = append(items, f x)] over [xs] is [map f xs]. *)
Lemma append_loop {X} (f : X → OrderSchemaItem Schema) (xs : list X) acc :
  foldl (λ items x, items ++ [f x]) acc xs = acc ++ (f <$> xs).
Proof.
  revert acc. induction xs as [|x xs IH]; intros acc; simpl.
  - by rewrite app_nil_r.
  - by rewrite IH, <- app_assoc.
Qed.

Lemma append_loop_entries (kvs : list (string * Schema)) acc :
  foldl (λ items '(k, v), items ++ [Item k v]) acc kvs
  = acc ++ ((λ kv, Item kv.1 kv.2) <$> kvs).
Proof.
  revert acc. induction kvs as [|[k v] kvs IH]; intros acc; simpl.
  - by rewrite app_nil_r.
  - by rewrite IH, <- app_assoc.
Qed.

(** With the insertion-order structure: one item per key, in key order. *)
Lemma ToOrderedSchemaItems_omap srt ρ origin o :
  ToOrderedSchemaItems srt ρ (mk origin (Some o)) =
    (Val ((λ key, Item key (map_index origin key)) <$> orderedmap.Keys o),
     mk origin (Some o)).
Proof.
  run_M. by rewrite append_loop.
Qed.

(** Without it: the entries in the order the runtime visits them, sorted. *)
Lemma ToOrderedSchemaItems_fallback srt ρ origin :
  ToOrderedSchemaItems srt ρ (mk origin None) =
    (Val (sort.Sort srt ((λ kv, Item kv.1 kv.2) <$> range_map ρ origin)),
     mk origin None).
Proof.
  run_M. by rewrite append_loop_entries.
Qed.

Lemma ToOrderedSchemaItems_returns srt ρ σ :
  ∃ items, ToOrderedSchemaItems srt ρ σ = (Val items, σ).
Proof.
  destruct σ as [origin [o|]].
  - rewrite ToOrderedSchemaItems_omap. eauto.
  - rewrite ToOrderedSchemaItems_fallback. eauto.
Qed.

Lemma MarshalJSON_nil srt ρ om :
  MarshalJSON srt ρ (mk None om) = (Val (list_ascii_of_string "null", None), mk None om).
Proof. reflexivity. Qed.

Lemma MarshalJSON_initialized srt ρ σ m items :
  Origin σ = Some m →
  ToOrderedSchemaItems srt ρ σ = (Val items, σ) →
  MarshalJSON srt ρ σ = (Val (json.Marshal items), σ).
Proof.
  intros Hm Hitems. unfold MarshalJSON, mbind at 1, M_bind at 1, get_Origin.
  rewrite Hm. unfold mbind, M_bind. by rewrite Hitems.
Qed.

(** [Set_] on a container whose two objects exist. *)
Lemma Set_initialized m o k v :
  Set_ k v (mk (Some m) (Some o)) =
    (Val (), mk (Some (<[k := v]> m)) (Some (orderedmap.Set_ o k v))).
Proof. reflexivity. Qed.

(** The calls [Set(k1, v1); ...; Set(kn, vn)], one after the other. *)
Fixpoint Set_all (kvs : list (string * Schema)) : M unit :=
  match kvs with
  | [] => mret ()
  | (k, v) :: rest => Set_ k v;; Set_all rest
  end.

(** The names of a series of insertions in the order of their first
insertion, after the names [seen] before. *)
Definition first_seen (seen names : list string) : list string :=
  foldl (λ seen k, if bool_decide (k ∈ seen) then seen else seen ++ [k]) seen names.

(** The schema most recently inserted under each name, over [m]. *)
Definition last_set (m : gmap string Schema) (kvs : list (string * Schema))
    : gmap string Schema :=
  foldl (λ m kv, <[kv.1 := kv.2]> m) m kvs.

(** What the insertion operation maintains: both objects exist, the
ordered map holds the same entries as the origin map, and its key slice
lists each of their names once. *)
Definition coherent σ : Prop :=
  ∃ m ks, σ = mk (Some m) (Some (orderedmap.mk ks m))
    ∧ NoDup ks ∧ ∀ k, k ∈ ks ↔ is_Some (m !! k).

Lemma coherent_New : coherent NewSchemaProperties.
Proof.
  exists ∅, []. split_and!; [done|constructor|].
  intros k. rewrite lookup_empty. split; [by intros ?%elem_of_nil|by intros [? ?]].
Qed.

Lemma orderedmap_Set_seen ks m k v :
  (∀ k', k' ∈ ks ↔ is_Some (m !! k')) →
  orderedmap.Set_ (orderedmap.mk ks m) k v
  = orderedmap.mk (if bool_decide (k ∈ ks) then ks else ks ++ [k]) (<[k := v]> m).
Proof.
  intros Hks. unfold orderedmap.Set_. simpl.
  by rewrite (bool_decide_ext _ _ (Hks k)).
Qed.

Lemma seen_insert ks m k v :
  (∀ k', k' ∈ ks ↔ is_Some (m !! k')) →
  ∀ k', k' ∈ (if bool_decide (k ∈ ks) then ks else ks ++ [k])
        ↔ is_Some (<[k := v]> m !! k').
Proof.
  intros Hks k'. rewrite lookup_insert_is_Some, <- Hks.
  case_bool_decide as Hin; [|rewrite elem_of_app, list_elem_of_singleton];
    destruct (decide (k = k')) as [->|Hne]; intuition congruence.
Qed.

Lemma coherent_Set σ k v :
  coherent σ → ∃ σ', Set_ k v σ = (Val (), σ') ∧ coherent σ'.
Proof.
  intros (m & ks & -> & Hnodup & Hks).
  rewrite Set_initialized, (orderedmap_Set_seen _ _ _ _ Hks).
  eexists; split; [done|]. eexists _, _; split_and!; [done| |].
  - case_bool_decide; [done|]. apply NoDup_app; split_and!; [done| |apply NoDup_singleton].
    intros k' Hk'. rewrite list_elem_of_singleton. by intros ->.
  - by apply seen_insert.
Qed.

Lemma built_coherent σ : built σ → coherent σ.
Proof.
  induction 1 as [|σ k v σ' _ IH Hset]; [apply coherent_New|].
  destruct (coherent_Set σ k v IH) as (σ'' & Hset' & ?). congruence.
Qed.

(** A series of insertions into a coherent container returns, and leaves
the names in first-insertion order with the last schema of each. *)
Lemma Set_all_coherent kvs m ks :
  (∀ k, k ∈ ks ↔ is_Some (m !! k)) →
  Set_all kvs (mk (Some m) (Some (orderedmap.mk ks m)))
  = (Val (), mk (Some (last_set m kvs))
                (Some (orderedmap.mk (first_seen ks kvs.*1) (last_set m kvs)))).
Proof.
  revert m ks. induction kvs as [|[k v] kvs IH]; intros m ks Hks; [done|].
  simpl. unfold mbind, M_bind.
  rewrite Set_initialized, (orderedmap_Set_seen _ _ _ _ Hks), IH; [done|].
  by apply seen_insert.
Qed.

Lemma Set_all_New kvs :
  Set_all kvs NewSchemaProperties
  = (Val (), mk (Some (last_set ∅ kvs))
                (Some (orderedmap.mk (first_seen [] kvs.*1) (last_set ∅ kvs)))).
Proof.
  apply Set_all_coherent. intros k. rewrite lookup_empty.
  split; [by intros ?%elem_of_nil|by intros [? ?]].
Qed.
End ContainerFacts.

(** ** The claims about the container *)

Section Claims.
Import OrderSchemaItems SchemaProperties.
Context {Schema : Type} `{SchemaType Schema}.
Implicit Types (σ : SchemaProperties.t Schema) (m : gmap string Schema).
Implicit Types (o : orderedmap.OrderedMap Schema) (k : string) (v : Schema).
Implicit Types (srt : sort.Sorter Schema) (ρ : range_order Schema).
Implicit Types (items : list (OrderSchemaItem Schema)).

(** Claim C1.  When the insertion-order structure is present,
[ToOrderedSchemaItems] returns one pair per key of the structure, in the
structure's own order, each name with the schema the origin map holds for
it; neither the sorter nor any extension of a sub-schema takes part.  For a
container filled through the constructor and a series of insertions that
order is the order in which the names were first inserted. *)
Theorem ToOrderedSchemaItems_insertion_order srt ρ :
  (∀ origin o,
     ToOrderedSchemaItems srt ρ (mk origin (Some o))
     = (Val ((λ key, Item key (map_index origin key)) <$> orderedmap.Keys o),
        mk origin (Some o)))
  ∧ (∀ kvs,
     fst (ToOrderedSchemaItems srt ρ (snd (Set_all kvs NewSchemaProperties)))
     = Val ((λ key, Item key (map_index (Some (last_set ∅ kvs)) key))
              <$> first_seen [] kvs.*1)).
Proof.
  split.
  - intros origin o. apply ToOrderedSchemaItems_omap.
  - intros kvs. rewrite Set_all_New. cbn [snd].
    by rewrite ToOrderedSchemaItems_omap.
Qed.

(** Replacing the function under a map at the one place where it differs. *)
Lemma fmap_insert_NoDup {B} (f g : string → B) (ks : list string) i k :
  NoDup ks → ks !! i = Some k → (∀ k', k' ≠ k → g k' = f k') →
  g <$> ks = <[i := g k]> (f <$> ks).
Proof.
  intros Hnodup Hi Hfg. apply list_eq. intros j.
  destruct (decide (i = j)) as [<-|Hne].
  - rewrite list_lookup_insert_eq, list_lookup_fmap, Hi; [done|].
    rewrite length_fmap. by eapply lookup_lt_Some.
  - rewrite list_lookup_insert_ne, !list_lookup_fmap by done.
    destruct (ks !! j) as [k'|] eqn:Hj; [simpl|done].
    rewrite Hfg; [done|]. intros ->. apply Hne.
    by eapply NoDup_lookup.
Qed.

(** Claim C5.  In a container built by the constructor and insertions,
inserting a name that is already there keeps every pair of the ordered
sequence in its place and only replaces, at the position of that name, the
schema by the one just inserted. *)
Theorem Set_existing_keeps_position srt ρ σ k v items i it :
  built σ →
  fst (ToOrderedSchemaItems srt ρ σ) = Val items →
  items !! i = Some it → Name it = k →
  ∃ σ', Set_ k v σ = (Val (), σ')
    ∧ fst (ToOrderedSchemaItems srt ρ σ') = Val (<[i := Item k v]> items).
Proof.
  intros (m & ks & -> & Hnodup & Hks)%built_coherent Hitems Hi Hname.
  rewrite ToOrderedSchemaItems_omap in Hitems. simpl in Hitems.
  injection Hitems as <-. unfold orderedmap.Keys in Hi. simpl in Hi.
  rewrite list_lookup_fmap in Hi.
  destruct (ks !! i) as [k'|] eqn:Hk'; [|done].
  injection Hi as <-. simpl in Hname. subst k'.
  rewrite Set_initialized, (orderedmap_Set_seen _ _ _ _ Hks).
  rewrite bool_decide_eq_true_2 by (by eapply list_elem_of_lookup_2).
  eexists; split; [done|]. rewrite ToOrderedSchemaItems_omap. simpl. f_equal.
  unfold orderedmap.Keys. simpl.
  rewrite (fmap_insert_NoDup (λ key, Item key (map_index (Some m) key)) _ ks i k)
    by (try done; intros k' Hne; unfold map_index; simpl; by rewrite lookup_insert_ne).
  unfold map_index. simpl. by rewrite lookup_insert_eq.
Qed.

(** Claim C9, as the code has it.  [Set_] returns without a panic on every
container whose origin map and insertion-order structure both exist,
whatever the name (the empty string too) and the schema; the containers
built by the constructor and by insertions are of that kind, and
inserting into one of them gives another. *)
Theorem Set_succeeds_when_initialized k v :
  (∀ m o, Set_ k v (mk (Some m) (Some o))
          = (Val (), mk (Some (<[k := v]> m)) (Some (orderedmap.Set_ o k v))))
  ∧ (∀ σ, built σ → ∃ σ', Set_ k v σ = (Val (), σ') ∧ built σ').
Proof.
  split; [intros m o; apply Set_initialized|].
  intros σ Hσ. destruct (coherent_Set σ k v (built_coherent σ Hσ)) as (σ' & Hset & _).
  exists σ'. split; [done|]. by eapply built_Set.
Qed.

(** Claim C10.  [Len], [ToOrderedSchemaItems] and [MarshalJSON] return
without a panic and leave the origin map and the insertion-order structure
as they were, whatever they return. *)
Theorem reads_leave_container_unchanged srt ρ σ :
  (∃ n, Len σ = (Val n, σ))
  ∧ (∃ items, ToOrderedSchemaItems srt ρ σ = (Val items, σ))
  ∧ (∃ out, MarshalJSON srt ρ σ = (Val out, σ)).
Proof.
  split_and!.
  - destruct σ as [[m|] om]; run_M; eauto.
  - apply ToOrderedSchemaItems_returns.
  - destruct (ToOrderedSchemaItems_returns srt ρ σ) as [items Hitems].
    destruct σ as [[m|] om].
    + erewrite MarshalJSON_initialized by done. eauto.
    + rewrite MarshalJSON_nil. eauto.
Qed.
End Claims.


(** ** [compact] keeps an opening brace *)

Section CompactFacts.
Import json.

(** What holds of [dst] and [start] once the first byte [c0] of the source
is behind: either nothing was written and [start] is still 0, or the
destination begins with [c0]. *)
Definition headed (c0 : ascii) (ds : bytes * nat) : Prop :=
  (ds.1 = [] ∧ ds.2 = 0) ∨ ∃ t, ds.1 = c0 :: t.

Lemma flush_headed (c0 : ascii) (src0 : bytes) ds i more :
  headed c0 ds → 0 < i → ∃ t, flush ds.1 (c0 :: src0) ds.2 i ++ more = c0 :: t.
Proof.
  intros [[-> ->]|[t ->]] Hi; unfold flush.
  - destruct i as [|i]; [lia|]. simpl. eauto.
  - destruct (ds.2 <? i); simpl; eauto.
Qed.

Lemma escape_html_headed (c0 : ascii) (src0 : bytes) escape i c ds :
  headed c0 ds → 0 < i → headed c0 (escape_html escape (c0 :: src0) i c ds).
Proof.
  intros Hds Hi. unfold escape_html. destruct (escape && isHTML c); [|done].
  right. simpl. by apply flush_headed.
Qed.

Lemma escape_line_separator_headed (c0 : ascii) (src0 : bytes) escape i c rest' ds :
  headed c0 ds → 0 < i → headed c0 (escape_line_separator escape (c0 :: src0) i c rest' ds).
Proof.
  intros Hds Hi. unfold escape_line_separator.
  destruct rest' as [|c1 [|c2 ?]]; [done..|].
  destruct (_ && _); [|done]. right. simpl. by apply flush_headed.
Qed.

Lemma compact_loop_headed (c0 : ascii) (src0 : bytes) escape rest i scan dst start scan' dst' start' :
  compact_loop escape (c0 :: src0) i rest scan dst start = (scan', dst', start') →
  0 < i → headed c0 (dst, start) → headed c0 (dst', start').
Proof.
  revert i scan dst start.
  induction rest as [|c rest' IH]; intros i scan dst start Hloop Hi Hds; simpl in Hloop.
  - by injection Hloop as _ <- <-.
  - pose proof (escape_line_separator_headed c0 src0 escape i c rest' _
      (escape_html_headed c0 src0 escape i c _ Hds Hi) Hi) as Hds'.
    destruct (escape_line_separator _ _ _ _ _ _) as [dst1 start1]. simpl in *.
    destruct (run_step scan c) as [scan1 v].
    destruct (ge_scanSkipSpace v).
    + assert (headed c0 (flush dst1 (c0 :: src0) start1 i, i + 1)) as Hflush.
      { right. destruct (flush_headed c0 src0 (dst1, start1) i [] Hds' Hi) as [t Ht].
        rewrite app_nil_r in Ht. eauto. }
      destruct v; try (eapply IH; [exact Hloop|lia|done]).
      by injection Hloop as _ <- <-.
    + eapply IH; [exact Hloop|lia|done].
Qed.

(** A source that opens with a brace compacts, when it does, to bytes that
open with a brace. *)
Lemma compact_brace (src0 : bytes) out :
  compact ("{"%char :: src0) true = (out, None) → ∃ t, out = "{"%char :: t.
Proof.
  intros Hcompact. unfold compact in Hcompact.
  destruct (compact_loop _ _ _ _ _ _ _) as [[scan' dst'] start'] eqn:Hloop.
  assert (headed "{" (dst', start')) as Hds.
  { cbn [compact_loop] in Hloop.
    assert (escape_line_separator true ("{"%char :: src0) 0 "{" src0
              (escape_html true ("{"%char :: src0) 0 "{" ([], 0)) = ([], 0)) as Hesc
      by (by destruct src0 as [|c1 [|c2 ?]]).
    assert (run_step newScanner "{"
            = (mkScanner AtBeginStringOrEmpty false [parseObjectKey] None, scanBeginObject))
      as Hstep by (vm_compute; reflexivity).
    rewrite Hesc, Hstep in Hloop. cbn [ge_scanSkipSpace fst snd] in Hloop.
    eapply compact_loop_headed; [exact Hloop|lia|by left]. }
  destruct (eof scan'); [done|]. injection Hcompact as <-.
  destruct Hds as [[Hd Hs]|[t Ht]]; simpl in *; subst.
  - exists src0. done.
  - destruct (_ <? _); simpl; eauto.
Qed.
End CompactFacts.

(** ** The claims about serialization *)

Section SerializationClaims.
Import OrderSchemaItems SchemaProperties.
Context {Schema : Type} `{SchemaType Schema}.
Implicit Types (σ : SchemaProperties.t Schema) (m : gmap string Schema).
Implicit Types (o : orderedmap.OrderedMap Schema) (k : string) (v : Schema).
Implicit Types (srt : sort.Sorter Schema) (ρ : range_order Schema).
Implicit Types (items rest : list (OrderSchemaItem Schema)).

(** The invariant of the data model: the insertion-order structure, when
it is there, lists exactly the names of the origin map. *)
Definition names_agree σ : Prop :=
  ∀ o, omap σ = Some o →
  ∀ k, k ∈ orderedmap.Keys o ↔ is_Some (Origin σ ≫= (.!! k)).

(** What [MarshalJSON] returns without an error extends the buffer. *)
Lemma MarshalJSON_loop_extends rest i buf out :
  MarshalJSON_loop i rest buf = (out, None) → ∃ more, out = buf ++ more.
Proof.
  revert i buf. induction rest as [|it rest IH]; intros i buf; simpl.
  - intros [= <-]. eauto.
  - destruct (Marshal_Schema (embedded it)) as [bs [e|]]; [done|].
    intros (more & ->)%IH. unfold WriteString.
    destruct (0 <? i); rewrite <- ?app_assoc; eauto.
Qed.

(** The loop stops at the first sub-schema whose encoding fails, and
returns that error and no bytes. *)
Lemma MarshalJSON_loop_fails rest i buf it bs e :
  it ∈ rest → Marshal_Schema (embedded it) = (bs, Some e) →
  ∃ it' bs' e', it' ∈ rest ∧ Marshal_Schema (embedded it') = (bs', Some e')
    ∧ MarshalJSON_loop i rest buf = ([], Some e').
Proof.
  intros Hin Hfail. revert i buf.
  induction rest as [|it0 rest IH]; intros i buf; [by apply elem_of_nil in Hin|].
  simpl. destruct (Marshal_Schema (embedded it0)) as [bs0 [e0|]] eqn:Hit0.
  - exists it0, bs0, e0. split_and!; [left|done|done].
  - apply elem_of_cons in Hin as [->|Hin]; [congruence|].
    destruct (IH Hin (i + 1) ((if 0 <? i then WriteString buf "," else buf)
                               ++ [dquote] ++ list_ascii_of_string (Name it0)
                               ++ [dquote; ":"%char] ++ bs0))
      as (it' & bs' & e' & Hin' & Hfail' & Hloop).
    exists it', bs', e'. split_and!; [by right|done|].
    unfold WriteString in *. by rewrite <- !app_assoc.
Qed.

(** [json.Marshal] of a sequence never returns the text [null]. *)
Lemma Marshal_items_not_null items :
  json.Marshal items ≠ (list_ascii_of_string "null", None).
Proof.
  unfold json.Marshal, json.MarshalJSON, marshaler, OrderSchemaItems.MarshalJSON.
  destruct (MarshalJSON_loop 0 items _) as [b [e|]] eqn:Hb; [done|].
  apply MarshalJSON_loop_extends in Hb as [more ->]. simpl.
  destruct (json.compact _ _) as [out [e|]] eqn:Hout; [done|].
  apply compact_brace in Hout as [t ->]. done.
Qed.

(** Claim C4, as the code has it.  [MarshalJSON] returns the text [null]
when the origin map is nil and never when it is not; and for a container
whose origin map exists and has no entry, and whose insertion-order
structure, if there is one, lists exactly the names of the origin map, it
returns the text of the empty object. *)
Theorem MarshalJSON_null_iff_uninitialized srt ρ :
  (∀ om, fst (MarshalJSON srt ρ (mk None om)) = Val (list_ascii_of_string "null", None))
  ∧ (∀ m om, fst (MarshalJSON srt ρ (mk (Some m) om))
             ≠ Val (list_ascii_of_string "null", None))
  ∧ (∀ m om, size m = 0 → names_agree (mk (Some m) om) →
             fst (MarshalJSON srt ρ (mk (Some m) om)) = Val (list_ascii_of_string "{}", None)).
Proof.
  split_and!.
  - intros om. by rewrite MarshalJSON_nil.
  - intros m om.
    destruct (ToOrderedSchemaItems_returns srt ρ (mk (Some m) om)) as [items Hitems].
    erewrite MarshalJSON_initialized by done. simpl.
    intros [= Hnull]. by apply Marshal_items_not_null in Hnull.
  - intros m om ->%map_size_empty_inv Hagree.
    assert (ToOrderedSchemaItems srt ρ (mk (Some ∅) om) = (Val [], mk (Some ∅) om)) as Hitems.
    { destruct om as [o|].
      - rewrite ToOrderedSchemaItems_omap. do 2 f_equal.
        destruct (orderedmap.Keys o) as [|k ks] eqn:Hkeys; [done|].
        pose proof (proj1 (Hagree o eq_refl k)) as Hk. rewrite Hkeys in Hk.
        simpl in Hk. rewrite lookup_empty in Hk. destruct Hk as [? [=]]. left.
      - rewrite ToOrderedSchemaItems_fallback. do 2 f_equal. simpl.
        pose proof (range_permutes ρ ∅) as Hperm. rewrite map_to_list_empty in Hperm.
        apply Permutation_nil_r in Hperm. rewrite Hperm. simpl.
        apply Permutation_nil_r, sort.Sort_permutes. }
    erewrite MarshalJSON_initialized by done. reflexivity.
Qed.

(** Claim C7.  When the encoding of a sub-schema of the ordered sequence
fails, [OrderSchemaItems.MarshalJSON] returns the error of the first one
that fails and no bytes, and the container's [MarshalJSON] returns that
error, wrapped by [json.Marshal], and no bytes either. *)
Theorem MarshalJSON_fails_when_a_schema_fails srt ρ σ m items it bs e :
  Origin σ = Some m →
  fst (ToOrderedSchemaItems srt ρ σ) = Val items →
  it ∈ items → Marshal_Schema (embedded it) = (bs, Some e) →
  ∃ it' bs' e', it' ∈ items ∧ Marshal_Schema (embedded it') = (bs', Some e')
    ∧ OrderSchemaItems.MarshalJSON items = ([], Some e')
    ∧ fst (SchemaProperties.MarshalJSON srt ρ σ)
      = Val ([], Some (MarshalerError "spec.OrderSchemaItems" e')).
Proof.
  intros Hm Hitems Hin Hfail.
  destruct (ToOrderedSchemaItems_returns srt ρ σ) as [items' Hitems'].
  rewrite Hitems' in Hitems. injection Hitems as ->.
  destruct (MarshalJSON_loop_fails items 0 (WriteString [] "{") it bs e Hin Hfail)
    as (it' & bs' & e' & Hin' & Hfail' & Hloop).
  exists it', bs', e'. split_and!; [done..|].
  erewrite MarshalJSON_initialized by done. simpl.
  unfold json.Marshal. simpl. unfold OrderSchemaItems.MarshalJSON. by rewrite Hloop.
Qed.
End SerializationClaims.

(** ** The claims about the comparison *)

Section LessClaims.
Import OrderSchemaItems SchemaProperties.
Context {Schema : Type} `{SchemaType Schema}.
Implicit Types (srt : sort.Sorter Schema) (ρ : range_order Schema).
Implicit Types (items : list (OrderSchemaItem Schema)) (a b : OrderSchemaItem Schema).

(** The string that [reflect.String] yields for a value. *)
Definition printed (v : value) : string :=
  match v with
  | VString s => s
  | _ => reflect.stringNonString v
  end.

(** [Less] on two pairs of the slice, by the presence of the extension. *)
Lemma Less_at items i j a b :
  items !! i = Some a → items !! j = Some b →
  Less items i j =
    match GetString (embedded a) "x-order", GetString (embedded b) "x-order" with
    | (ii, true), (ij, true) =>
      Val (match reflect.Int ii, reflect.Int ij with
           | Val x, Val y => (x <? y)%Z
           | _, _ => String.ltb (printed ii) (printed ij)
           end)
    | (_, true), (_, false) => Val true
    | (_, false), (_, true) => Val false
    | (_, false), (_, false) => Val (String.ltb (Name a) (Name b))
    end.
Proof.
  intros Ha Hb. unfold Less. rewrite (index_Val _ _ _ Ha), (index_Val _ _ _ Hb). simpl.
  destruct (GetString (embedded a) "x-order") as [ii [|]],
           (GetString (embedded b) "x-order") as [ij [|]]; try done.
  destruct ii, ij; done.
Qed.

(** Any sorter agrees with [insertionSort] on a short slice. *)
Lemma Sort_short_eq srt items :
  length items ≤ 6 → sort.Sort srt items = insertion_Sort items.
Proof.
  intros Hlen. pose proof (sort.Sort_short srt items Hlen) as Hsrt.
  rewrite (insertion_Sort_short items Hlen) in Hsrt. by injection Hsrt.
Qed.

(** The three entries of the scenario, in whatever order they are visited. *)
Lemma range_three ρ (sa sb sc : Schema) :
  range ρ (<["b" := sb]> (<["a" := sa]> (<["c" := sc]> ∅)))
  ∈ permutations [("b", sb); ("a", sa); ("c", sc)].
Proof.
  apply permutations_Permutation. rewrite (range_permutes ρ).
  rewrite !map_to_list_insert, map_to_list_empty; [done|by simplify_map_eq..].
Qed.

(** Claim C3.  In [Less] a pair with an ordering value is before a pair
without one and never after it; two pairs without one are compared by
name; and with no insertion-order structure the entries b (no ordering
value), a (ordering value 2) and c (ordering value 1) come out in the
order c, a, b, however the runtime visits the map and whatever the
sorter, be the two values integers or the strings of those digits. *)
Theorem Less_ordered_before_unordered srt ρ :
  (∀ items i j a b,
     items !! i = Some a → items !! j = Some b →
     (GetString (embedded a) "x-order").2 = true →
     (GetString (embedded b) "x-order").2 = false →
     Less items i j = Val true ∧ Less items j i = Val false)
  ∧ (∀ items i j a b,
     items !! i = Some a → items !! j = Some b →
     (GetString (embedded a) "x-order").2 = false →
     (GetString (embedded b) "x-order").2 = false →
     Less items i j = Val (String.ltb (Name a) (Name b)))
  ∧ (∀ sa sb sc va vc,
     GetString sa "x-order" = (va, true) →
     (GetString sb "x-order").2 = false →
     GetString sc "x-order" = (vc, true) →
     (va = VInt 2 ∧ vc = VInt 1) ∨ (va = VString "2" ∧ vc = VString "1") →
     fst (ToOrderedSchemaItems srt ρ
            (mk (Some (<["b" := sb]> (<["a" := sa]> (<["c" := sc]> ∅)))) None))
     = Val [Item "c" sc; Item "a" sa; Item "b" sb]).
Proof.
  split_and!.
  - intros items i j a b Ha Hb Hoa Hob.
    rewrite (Less_at _ _ _ _ _ Ha Hb), (Less_at _ _ _ _ _ Hb Ha).
    destruct (GetString (embedded a) "x-order") as [ii oki],
             (GetString (embedded b) "x-order") as [ij okj].
    simpl in *. by subst.
  - intros items i j a b Ha Hb Hoa Hob. rewrite (Less_at _ _ _ _ _ Ha Hb).
    destruct (GetString (embedded a) "x-order") as [ii oki],
             (GetString (embedded b) "x-order") as [ij okj].
    simpl in *. by subst.
  - intros sa sb sc va vc Ha Hb Hc Hvalues.
    destruct (GetString sb "x-order") as [vb okb] eqn:Hb'. simpl in Hb. subst okb.
    rewrite ToOrderedSchemaItems_fallback. cbn [fst range_map]. f_equal.
    pose proof (range_three ρ sa sb sc) as Hrange.
    cbn in Hrange. rewrite !elem_of_cons, elem_of_nil in Hrange.
    rewrite Sort_short_eq
      by (rewrite length_fmap; destruct Hrange as [->|[->|[->|[->|[->|[->|[]]]]]]]; simpl; lia).
    assert (String.ltb "1" "2" = true) as H12 by reflexivity.
    assert (String.ltb "2" "1" = false) as H21 by reflexivity.
    destruct Hvalues as [[-> ->]|[-> ->]];
      destruct Hrange as [->|[->|[->|[->|[->|[->|[]]]]]]];
      unfold insertion_Sort, sort.insertionSort, Len;
      repeat (progress (cbn; rewrite ?Ha, ?Hb', ?Hc, ?H12, ?H21)); reflexivity.
Qed.
End LessClaims.


(** ** Determinism *)

Section Determinism.
Import OrderSchemaItems SchemaProperties.
Context {Schema : Type} `{SchemaType Schema}.
Implicit Types (srt : sort.Sorter Schema) (ρ : range_order Schema).
Implicit Types (σ : SchemaProperties.t Schema).

(** With a nil origin map or with the insertion-order structure, what
[MarshalJSON] returns depends on the container alone. *)
Lemma MarshalJSON_deterministic_without_fallback srt1 srt2 ρ1 ρ2 origin om :
  origin = None ∨ is_Some om →
  MarshalJSON srt1 ρ1 (mk origin om) = MarshalJSON srt2 ρ2 (mk origin om).
Proof.
  intros [->|[o ->]]; [by rewrite !MarshalJSON_nil|].
  destruct origin as [m|]; [|by rewrite !MarshalJSON_nil].
  by rewrite (MarshalJSON_initialized srt1 ρ1 (mk (Some m) (Some o)) m _ eq_refl
                (ToOrderedSchemaItems_omap _ _ _ _)),
             (MarshalJSON_initialized srt2 ρ2 (mk (Some m) (Some o)) m _ eq_refl
                (ToOrderedSchemaItems_omap _ _ _ _)).
Qed.

(** Insertions into a built container return and give a built container. *)
Lemma Set_all_built kvs σ :
  built σ → ∃ σ', Set_all kvs σ = (Val (), σ') ∧ built σ'.
Proof.
  revert σ. induction kvs as [|[k v] kvs IH]; intros σ Hσ; simpl; [by eauto|].
  destruct (coherent_Set σ k v (built_coherent σ Hσ)) as (σ1 & Hset & _).
  destruct (IH σ1) as (σ' & Hall & Hσ'); [by eapply built_Set|].
  exists σ'. split; [|done]. unfold mbind, M_bind. by rewrite Hset.
Qed.

Lemma Set_all_New_built kvs : built (snd (Set_all kvs (NewSchemaProperties (Schema := Schema)))).
Proof.
  destruct (Set_all_built kvs NewSchemaProperties built_New) as (σ' & -> & Hσ'). done.
Qed.
End Determinism.

(** * The claims on concrete containers

The sub-schemas, containers and pairs used below are of the small
sub-schema type [Sample.Schema]. *)

Module Scenario.
Import OrderSchemaItems SchemaProperties.

(** JSON text written with a single quote for each double quote. *)
Definition json_text (s : string) : bytes :=
  (λ c, if Ascii.eqb c "'" then dquote else c) <$> list_ascii_of_string s.

Definition plain : Sample.Schema := Sample.mk None.
Definition ordered (v : value) : Sample.Schema := Sample.mk (Some v).

(** The zero value of the container type: no origin map, no structure. *)
Definition zero_container : SchemaProperties.t Sample.Schema := mk None None.

(** The constructor's container after [Set("a", x-order 1)] and [Set("b", plain)]. *)
Definition filled : SchemaProperties.t Sample.Schema :=
  snd (Set_all [("a", ordered (VInt 1)); ("b", plain)] NewSchemaProperties).

(** The constructor's container with a sub-schema that JSON cannot encode. *)
Definition unencodable : SchemaProperties.t Sample.Schema :=
  snd (Set_all [("a", plain); ("z", ordered (VOther "chan int"))] NewSchemaProperties).

(** The pairs of the mixed scenario: x with the integer 10, y with the string 5. *)
Definition x10 : OrderSchemaItem Sample.Schema := Item "x" (ordered (VInt 10)).
Definition y5 : OrderSchemaItem Sample.Schema := Item "y" (ordered (VString "5")).

(** A container without insertion-order structure whose two entries
have the same ordering value. *)
Definition ties : SchemaProperties.t Sample.Schema :=
  mk (Some (<["a" := ordered (VString "1")]> (<["b" := ordered (VString "1")]> ∅))) None.

(** The name a, quote, colon, empty object, comma, quote, b. *)
Definition forged_name : string :=
  "a" +:+ String dquote ":{}," +:+ String dquote "b".

Definition two_names : SchemaProperties.t Sample.Schema :=
  snd (Set_all [("a", plain); ("b", plain)] NewSchemaProperties).
Definition one_forged_name : SchemaProperties.t Sample.Schema :=
  snd (Set_all [(forged_name, plain)] NewSchemaProperties).
End Scenario.

Section Agreement.
Import OrderSchemaItems SchemaProperties.
Context {Schema : Type} `{SchemaType Schema}.

(** A container kept by the insertion operation satisfies the invariant
of the data model. *)
Lemma coherent_names_agree (σ : SchemaProperties.t Schema) : coherent σ → names_agree σ.
Proof.
  intros (m & ks & -> & _ & Hks) o [= <-] k. simpl. apply Hks.
Qed.
End Agreement.

Import OrderSchemaItems SchemaProperties Scenario.

(** Claim C1 on a container: the names come out as inserted, a before b,
although only a has an ordering value and the re-insertion of a comes last. *)
Example insertion_order_example :
  fst (ToOrderedSchemaItems insertion Sample.forwards
         (snd (Set_all [("b", plain); ("a", ordered (VInt 1)); ("b", ordered (VInt 0))]
                 NewSchemaProperties)))
  = Val [Item "b" (ordered (VInt 0)); Item "a" (ordered (VInt 1))].
Proof. vm_compute. reflexivity. Qed.

(** Claim C2 on failing inputs.  The pairs a and b have the booleans
true and false as ordering values, which are neither integers nor
strings: the claim has [Less] compare the names, which puts a before b,
but the comparison under the first recover never panics, so the name tier
under the second recover is not reached and [Less] compares the same
placeholder with itself: neither pair is before the other.  In the mixed
scenario, x has the integer 10 and y the string 5: [Less] does not compare
the texts 10 and 5, which would put x first, but the placeholder of the
integer with the text 5, which puts y first. *)
Theorem Less_name_tier_never_reached :
  (Less [Item "a" (ordered (VBool true)); Item "b" (ordered (VBool false))] 0 1 = Val false
   ∧ Less [Item "a" (ordered (VBool true)); Item "b" (ordered (VBool false))] 1 0 = Val false
   ∧ String.ltb "a" "b" = true
   ∧ printed (VBool true) = "<bool Value>"
   ∧ printed (VBool false) = "<bool Value>")
  ∧ (Less [x10; y5] 0 1 = Val false
     ∧ Less [x10; y5] 1 0 = Val true
     ∧ String.ltb "10" "5" = true
     ∧ printed (VInt 10) = "<int Value>").
Proof. vm_compute. done. Qed.

(** [Less_ordered_before_unordered] on pairs of [Sample.Schema], and on
the three entries of the scenario visited in [map_to_list] order. *)
Lemma Less_ordered_before_unordered_witness :
  (Less [Item "a" (ordered (VInt 2)); Item "b" plain] 0 1 = Val true
   ∧ Less [Item "a" (ordered (VInt 2)); Item "b" plain] 1 0 = Val false)
  ∧ Less [Item "b" plain; Item "d" plain] 0 1 = Val true
  ∧ fst (ToOrderedSchemaItems insertion Sample.forwards
           (mk (Some (<["b" := plain]> (<["a" := ordered (VInt 2)]>
                        (<["c" := ordered (VInt 1)]> ∅)))) None))
    = Val [Item "c" (ordered (VInt 1)); Item "a" (ordered (VInt 2)); Item "b" plain].
Proof.
  pose proof (Less_ordered_before_unordered insertion Sample.forwards) as (H1 & H2 & H3).
  split; [|split].
  - exact (H1 [Item "a" (ordered (VInt 2)); Item "b" plain] 0 1 _ _
             eq_refl eq_refl eq_refl eq_refl).
  - exact (H2 [Item "b" plain; Item "d" plain] 0 1 _ _ eq_refl eq_refl eq_refl eq_refl).
  - exact (H3 (ordered (VInt 2)) plain (ordered (VInt 1)) (VInt 2) (VInt 1)
             eq_refl eq_refl eq_refl (or_introl (conj eq_refl eq_refl))).
Defined.

(** [MarshalJSON_null_iff_uninitialized] on the constructor's container. *)
Lemma MarshalJSON_null_iff_uninitialized_witness :
  fst (MarshalJSON insertion Sample.forwards zero_container) = Val (json_text "null", None)
  ∧ fst (MarshalJSON insertion Sample.forwards NewSchemaProperties) = Val (json_text "{}", None).
Proof.
  pose proof (MarshalJSON_null_iff_uninitialized insertion Sample.forwards) as (H1 & _ & H3).
  split.
  - exact (H1 None).
  - exact (H3 ∅ (Some orderedmap.New) eq_refl
             (coherent_names_agree _ coherent_New)).
Defined.

(** The constructor's container after [Set("a", plain)] and
[delete(p.Origin, "a")], which a caller may write since [Origin] is an
exported field: the origin map is empty, the ordered map still has a. *)
Definition emptied : SchemaProperties.t Sample.Schema :=
  let σ := snd (Set_ "a" plain NewSchemaProperties) in
  mk (delete "a" <$> Origin σ) (omap σ).

(** Claim C4 as stated fails on [emptied]: the origin map is not nil and
has no entry, [Len] is 0, and [MarshalJSON] follows the insertion-order
structure and returns an object with the member a. *)
Lemma MarshalJSON_follows_omap_when_Origin_is_empty :
  Origin emptied = Some ∅
  ∧ fst (SchemaProperties.Len emptied) = Val 0
  ∧ fst (MarshalJSON insertion Sample.forwards emptied) = Val (json_text "{'a':{}}", None)
  ∧ json_text "{'a':{}}" ≠ json_text "{}".
Proof. split_and!; [vm_compute; reflexivity..|discriminate]. Qed.

(** [Set_existing_keeps_position] on [filled]: inserting a again keeps a
before b and replaces its schema. *)
Lemma Set_existing_keeps_position_witness :
  ∃ σ', Set_ "a" (ordered (VInt 7)) filled = (Val (), σ')
    ∧ fst (ToOrderedSchemaItems insertion Sample.forwards σ')
      = Val [Item "a" (ordered (VInt 7)); Item "b" plain].
Proof.
  exact (Set_existing_keeps_position insertion Sample.forwards filled "a" (ordered (VInt 7))
           [Item "a" (ordered (VInt 1)); Item "b" plain] 0 (Item "a" (ordered (VInt 1)))
           (Set_all_New_built _) eq_refl eq_refl eq_refl).
Defined.

(** [MarshalJSON_fails_when_a_schema_fails] on [unencodable]. *)
Lemma MarshalJSON_fails_when_a_schema_fails_witness :
  ∃ it' bs' e',
    it' ∈ [Item "a" plain; Item "z" (ordered (VOther "chan int"))]
    ∧ Marshal_Schema (embedded it') = (bs', Some e')
    ∧ OrderSchemaItems.MarshalJSON [Item "a" plain; Item "z" (ordered (VOther "chan int"))]
      = ([], Some e')
    ∧ fst (SchemaProperties.MarshalJSON insertion Sample.forwards unencodable)
      = Val ([], Some (MarshalerError "spec.OrderSchemaItems" e')).
Proof.
  refine (MarshalJSON_fails_when_a_schema_fails insertion Sample.forwards unencodable
            (<["z" := ordered (VOther "chan int")]> (<["a" := plain]> ∅))
            [Item "a" plain; Item "z" (ordered (VOther "chan int"))]
            (Item "z" (ordered (VOther "chan int"))) []
            (MarshalerError "*spec.Schema" (OtherError "json: unsupported type: chan int"))
            eq_refl eq_refl _ eq_refl).
  right. left.
Defined.

(** Claim C9 as stated fails on the zero value of the container type:
[Set_] panics on the nil origin map; and on a container with an origin
map and no insertion-order structure it panics after storing the entry. *)
Lemma Set_panics_on_zero_container :
  fst (Set_ "a" plain zero_container) = Panic "assignment to entry in nil map"
  ∧ Set_ "a" plain (mk (Some ∅) None)
    = (Panic "invalid memory address or nil pointer dereference",
       mk (Some {["a" := plain]}) None).
Proof. split; reflexivity. Qed.

(** [Set_succeeds_when_initialized] on [filled], with the empty name. *)
Lemma Set_succeeds_when_initialized_witness :
  ∃ σ', Set_ "" plain filled = (Val (), σ') ∧ built σ'.
Proof.
  exact (proj2 (Set_succeeds_when_initialized "" plain) filled (Set_all_New_built _)).
Defined.

(** Claim C6 on a failing input.  The name of [one_forged_name] holds a
quote; [MarshalJSON] writes it as it is, and the text it returns is the
text it returns for [two_names], whose origin map has other keys.  No
decoder maps that one text back to both origin maps. *)
Theorem MarshalJSON_names_not_escaped :
  fst (MarshalJSON insertion Sample.forwards one_forged_name)
    = Val (json_text "{'a':{},'b':{}}", None)
  ∧ fst (MarshalJSON insertion Sample.forwards two_names)
    = Val (json_text "{'a':{},'b':{}}", None)
  ∧ Origin one_forged_name = Some {[forged_name := plain]}
  ∧ Origin two_names = Some (<["b" := plain]> {["a" := plain]})
  ∧ Origin one_forged_name ≠ Origin two_names.
Proof.
  split_and!; [vm_compute; reflexivity..|].
  intros Heq. apply (f_equal (λ origin, origin ≫= (.!! "a"))) in Heq.
  vm_compute in Heq. discriminate Heq.
Qed.

(** Claim C8 on a failing input.  [ties] has no insertion-order
structure and two entries with the same ordering value.  [Less] puts
neither before the other, the sort leaves them as the runtime visited
them, and two runs that visit the map in different orders return
different texts, whatever the sorter. *)
Theorem MarshalJSON_fallback_depends_on_range srt :
  fst (MarshalJSON srt Sample.forwards ties)
    = Val (json_text "{'a':{'x-order':'1'},'b':{'x-order':'1'}}", None)
  ∧ fst (MarshalJSON srt Sample.backwards ties)
    = Val (json_text "{'b':{'x-order':'1'},'a':{'x-order':'1'}}", None).
Proof.
  unfold ties. split.
  - erewrite MarshalJSON_initialized;
      [|done|rewrite ToOrderedSchemaItems_fallback, Sort_short_eq; [done|vm_compute; lia]].
    vm_compute. reflexivity.
  - erewrite MarshalJSON_initialized;
      [|done|rewrite ToOrderedSchemaItems_fallback, Sort_short_eq; [done|vm_compute; lia]].
    vm_compute. reflexivity.
Qed.

(** * Further properties of the code *)

(** ** [Less] and [Swap] as an implementation of [sort.Interface] *)

Section InterfaceFacts.
Import OrderSchemaItems.
Context {Schema : Type} `{SchemaType Schema}.
Implicit Types (items : list (OrderSchemaItem Schema)) (a b : OrderSchemaItem Schema).

Lemma index_Panic items i : length items ≤ i → index items i = Panic "index out of range".
Proof. intros Hi. unfold index. by rewrite lookup_ge_None_2. Qed.

Lemma ltb_asymmetric (s t : string) : String.ltb s t = true → String.ltb t s = false.
Proof.
  unfold String.ltb. rewrite (String.compare_antisym t s).
  by destruct (String.compare s t).
Qed.

Lemma ltb_irreflexive (s : string) : String.ltb s s = false.
Proof.
  destruct (String.ltb s s) eqn:Hlt; [|done].
  pose proof (ltb_asymmetric s s Hlt). congruence.
Qed.

(** Inside the slice [Less] returns whatever the types of the two
ordering values are: the panics of reflect are recovered.  Outside it
panics on the index, before any lookup of an extension. *)
Theorem Less_panics_only_out_of_range items i j :
  (i < length items → j < length items → ∃ r, Less items i j = Val r)
  ∧ (length items ≤ i ∨ length items ≤ j → Less items i j = Panic "index out of range").
Proof.
  split; [apply Less_returns|].
  intros Hout. unfold Less.
  destruct (decide (i < length items)) as [Hi|Hi].
  - destruct Hout as [?|Hj]; [exfalso; lia|].
    apply lookup_lt_is_Some_2 in Hi as [a Ha].
    by rewrite (index_Val _ _ _ Ha), (index_Panic _ _ Hj).
  - by rewrite (index_Panic items i) by lia.
Qed.

(** [Less] is irreflexive and asymmetric, as [sort.Interface] asks: no
pair is before itself, and of two pairs at most one is before the other. *)
Theorem Less_asymmetric items i j a b :
  items !! i = Some a → items !! j = Some b →
  Less items i i = Val false
  ∧ (Less items i j = Val true → Less items j i = Val false).
Proof.
  intros Ha Hb. rewrite (Less_at _ _ _ _ _ Ha Ha), (Less_at _ _ _ _ _ Ha Hb),
    (Less_at _ _ _ _ _ Hb Ha).
  destruct (GetString (embedded a) "x-order") as [ii [|]],
           (GetString (embedded b) "x-order") as [ij [|]]; simpl.
  - split.
    + destruct (reflect.Int ii); by rewrite ?Z.ltb_irrefl, ?ltb_irreflexive.
    + destruct (reflect.Int ii) as [x|], (reflect.Int ij) as [y|]; intros [= Hlt]; f_equal;
        try (by apply ltb_asymmetric).
      apply Z.ltb_lt in Hlt. apply Z.ltb_ge. lia.
  - split; [|done]. destruct (reflect.Int ii); by rewrite ?Z.ltb_irrefl, ?ltb_irreflexive.
  - split; [|done]. by rewrite ltb_irreflexive.
  - split; [by rewrite ltb_irreflexive|]. intros [= Hlt]. f_equal. by apply ltb_asymmetric.
Qed.

(** [Swap] inside the slice exchanges the two pairs and touches no other;
the result is a permutation of the slice, and swapping again gives the
slice back.  Outside the slice it panics. *)
Theorem Swap_exchanges items i j :
  (i < length items → j < length items →
   ∃ items', Swap items i j = Val items'
     ∧ items' !! i = items !! j ∧ items' !! j = items !! i
     ∧ (∀ k, k ≠ i → k ≠ j → items' !! k = items !! k)
     ∧ items' ≡ₚ items
     ∧ Swap items' i j = Val items)
  ∧ (length items ≤ i ∨ length items ≤ j → Swap items i j = Panic "index out of range").
Proof.
  split.
  - intros Hi Hj.
    destruct (lookup_lt_is_Some_2 _ _ Hi) as [a Ha], (lookup_lt_is_Some_2 _ _ Hj) as [b Hb].
    unfold Swap. rewrite (index_Val _ _ _ Ha), (index_Val _ _ _ Hb). simpl.
    assert (<[j:=a]> (<[i:=b]> items) !! i = Some b) as Hi'.
    { destruct (decide (i = j)) as [->|Hne].
      - rewrite list_lookup_insert_eq by (by rewrite length_insert). congruence.
      - rewrite list_lookup_insert_ne, list_lookup_insert_eq by done. done. }
    assert (<[j:=a]> (<[i:=b]> items) !! j = Some a) as Hj'.
    { by rewrite list_lookup_insert_eq by (by rewrite length_insert). }
    eexists. split_and!; [done|congruence|congruence| | |].
    + intros k Hki Hkj. by rewrite !list_lookup_insert_ne.
    + by apply Permutation_insert_swap.
    + rewrite (index_Val _ _ _ Hi'), (index_Val _ _ _ Hj'). simpl. f_equal.
      apply list_eq. intros k.
      destruct (decide (k = j)) as [->|Hkj].
      { rewrite list_lookup_insert_eq by (by rewrite !length_insert). done. }
      rewrite list_lookup_insert_ne by done.
      destruct (decide (k = i)) as [->|Hki].
      { rewrite list_lookup_insert_eq by (by rewrite !length_insert). done. }
      by rewrite !list_lookup_insert_ne by done.
  - intros Hout. unfold Swap.
    destruct (decide (j < length items)) as [Hj|Hj].
    + destruct Hout as [Hi|?]; [|exfalso; lia].
      apply lookup_lt_is_Some_2 in Hj as [b Hb].
      by rewrite (index_Val _ _ _ Hb), (index_Panic _ _ Hi).
    + by rewrite (index_Panic items j) by lia.
Qed.
End InterfaceFacts.

(** ** The text that [OrderSchemaItems.MarshalJSON] writes *)

Section ObjectText.
Import OrderSchemaItems.
Context {Schema : Type} `{SchemaType Schema}.
Implicit Types (items rest : list (OrderSchemaItem Schema)) (encs : list bytes).

(** One member of the object: the name between quotes as it is, a colon,
the encoding of the sub-schema. *)
Definition member (it : OrderSchemaItem Schema) (enc : bytes) : bytes :=
  [dquote] ++ list_ascii_of_string (Name it) ++ [dquote; ":"%char] ++ enc.

(** The members between braces, with a comma before each but the first. *)
Definition object_text (members : list bytes) : bytes :=
  match members with
  | [] => list_ascii_of_string "{}"
  | m :: more => "{"%char :: m ++ concat ((λ m', ","%char :: m') <$> more) ++ ["}"%char]
  end.

(** [encs] are the encodings of the sub-schemas of [items], in order. *)
Definition encodings items encs : Prop :=
  Forall2 (λ it enc, Marshal_Schema (embedded it) = (enc, None)) items encs.

Lemma MarshalJSON_loop_members rest encs i buf :
  0 < i → encodings rest encs →
  MarshalJSON_loop i rest buf
  = (buf ++ concat ((λ m', ","%char :: m') <$> zip_with member rest encs) ++ ["}"%char], None).
Proof.
  intros Hi Hencs. revert i buf Hi.
  induction Hencs as [|it enc rest encs Hit _ IH]; intros i buf Hi; simpl.
  - done.
  - rewrite Hit. destruct i as [|i]; [lia|]. simpl.
    rewrite IH by lia. unfold WriteString, member. simpl.
    by rewrite <- !app_assoc.
Qed.

Lemma MarshalJSON_loop_encodings rest i buf out :
  MarshalJSON_loop i rest buf = (out, None) → ∃ encs, encodings rest encs.
Proof.
  revert i buf. induction rest as [|it rest IH]; intros i buf; simpl.
  - intros _. exists []. constructor.
  - destruct (Marshal_Schema (embedded it)) as [enc [e|]] eqn:Hit; [done|].
    intros [encs Hencs]%IH. exists (enc :: encs). by constructor.
Qed.

Lemma MarshalJSON_of_encodings items encs :
  encodings items encs →
  OrderSchemaItems.MarshalJSON items = (object_text (zip_with member items encs), None).
Proof.
  intros Hencs. unfold OrderSchemaItems.MarshalJSON.
  destruct Hencs as [|it enc rest encs Hit Hencs]; [done|].
  simpl. rewrite Hit.
  rewrite (MarshalJSON_loop_members rest encs) by (done || lia).
  unfold WriteString, member. simpl. by rewrite <- !app_assoc.
Qed.

(** [OrderSchemaItems.MarshalJSON] returns without an error exactly when
every sub-schema of the slice encodes, and what it returns then is the
object whose members are the pairs of the slice in the order of the
slice, each name written as it is. *)
Theorem MarshalJSON_object_text items out :
  OrderSchemaItems.MarshalJSON items = (out, None)
  ↔ ∃ encs, encodings items encs ∧ out = object_text (zip_with member items encs).
Proof.
  split.
  - intros Hout. destruct (MarshalJSON_loop_encodings _ _ _ _ Hout) as [encs Hencs].
    exists encs. split; [done|]. rewrite (MarshalJSON_of_encodings _ encs Hencs) in Hout.
    congruence.
  - intros (encs & Hencs & ->). by apply MarshalJSON_of_encodings.
Qed.
End ObjectText.

(** ** Texts that [compact] returns as they are *)

Section CompactPlain.
Import json.

(** A byte that neither escape of [compact] rewrites. *)
Definition unescaped (c : ascii) : bool :=
  negb (isHTML c) && negb (Ascii.eqb c "226").

(** The scanner over bytes none of which [compact] rewrites or drops:
the state after them, or [None] when one of them is escaped, is white
space outside a string, or is a syntax error. *)
Fixpoint scan_kept (s : scanner) (bs : bytes) : option scanner :=
  match bs with
  | [] => Some s
  | c :: rest =>
    if unescaped c then
      let '(s', v) := run_step s c in
      if ge_scanSkipSpace v then None else scan_kept s' rest
    else None
  end.

(** A byte that may stand in a JSON string as it is and that [compact]
keeps: no control character, quote or backslash, and [unescaped]. *)
Definition plain_byte (c : ascii) : bool :=
  (32 <=? N_of_ascii c)%N && negb (Ascii.eqb c dquote) && negb (Ascii.eqb c backslash)
  && unescaped c.

Definition plain_name (name : string) : bool :=
  forallb plain_byte (list_ascii_of_string name).

(** The scanner inside the top-level object. *)
Definition in_object (st : step_fn) (top : parse_state) : scanner :=
  mkScanner st false [top] None.

(** [enc] is, for the scanner, one complete value of a member of the
top-level object, closed by its last byte (an object, an array, a string
or a literal), with nothing in it that [compact] rewrites or drops. *)
Definition compact_value (enc : bytes) : Prop :=
  scan_kept (in_object AtBeginValue parseObjectValue) enc
  = Some (in_object AtEndValue parseObjectValue).

Lemma scan_kept_app s bs1 bs2 :
  scan_kept s (bs1 ++ bs2) = scan_kept s bs1 ≫= λ s', scan_kept s' bs2.
Proof.
  revert s. induction bs1 as [|c bs1 IH]; intros s; simpl; [done|].
  destruct (unescaped c); [|done].
  destruct (run_step s c) as [s' v]. by destruct (ge_scanSkipSpace v).
Qed.

Lemma compact_loop_kept escape src i rest scan dst start scan' :
  scan_kept scan rest = Some scan' →
  compact_loop escape src i rest scan dst start = (scan', dst, start).
Proof.
  revert i scan. induction rest as [|c rest IH]; intros i scan; simpl.
  - by intros [= ->].
  - destruct (unescaped c) eqn:Hc; [|done].
    apply andb_true_iff in Hc as [Hhtml He2].
    apply negb_true_iff in Hhtml, He2.
    unfold escape_html, escape_line_separator. rewrite Hhtml, He2, !andb_false_r. simpl.
    assert (match rest with
            | c1 :: c2 :: _ => (dst, start)
            | _ => (dst, start)
            end = (dst, start)) as -> by (by destruct rest as [|? [|? ?]]).
    destruct (run_step scan c) as [s' v]. destruct (ge_scanSkipSpace v); [done|].
    simpl. apply IH.
Qed.

(** A text that the scanner accepts without dropping or rewriting a byte
is what [compact] returns. *)
Lemma compact_kept src s' :
  scan_kept newScanner src = Some s' → eof s' = None → compact src true = (src, None).
Proof.
  intros Hscan Heof. unfold compact.
  rewrite (compact_loop_kept _ _ _ _ _ _ _ _ Hscan), Heof.
  by destruct src.
Qed.

Lemma scan_kept_plain cs :
  forallb plain_byte cs = true →
  scan_kept (in_object AtInString parseObjectKey) cs
  = Some (in_object AtInString parseObjectKey).
Proof.
  induction cs as [|c cs IH]; simpl; [done|].
  intros [Hc Hcs]%andb_true_iff. unfold plain_byte in Hc.
  apply andb_true_iff in Hc as [Hc Hunescaped].
  apply andb_true_iff in Hc as [Hc Hbackslash].
  apply andb_true_iff in Hc as [Hcontrol Hquote].
  apply negb_true_iff in Hquote, Hbackslash.
  rewrite Hunescaped. unfold run_step, in_object. simpl. unfold stateInString.
  rewrite Hquote, Hbackslash.
  replace (N_of_ascii c <? 32)%N with false
    by (symmetry; apply N.ltb_ge; by apply N.leb_le).
  simpl. by apply IH.
Qed.
End CompactPlain.

(** ** Serialization of plain names *)

Section PlainNames.
Import json OrderSchemaItems SchemaProperties.
Context {Schema : Type} `{SchemaType Schema}.
Implicit Types (items : list (OrderSchemaItem Schema)) (encs : list bytes).
Implicit Types (it : OrderSchemaItem Schema) (enc : bytes).
Implicit Types (σ : SchemaProperties.t Schema) (m : gmap string Schema).
Implicit Types (srt : sort.Sorter Schema) (ρ : range_order Schema).

(** The pairs have plain names and sub-schemas that encode to [encs],
each of them a compact value. *)
Definition plain_members items encs : Prop :=
  Forall2 (λ it enc, plain_name (Name it) = true
                     ∧ Marshal_Schema (embedded it) = (enc, None)
                     ∧ compact_value enc) items encs.

(** From inside the quoted name to the end of the member's value. *)
Lemma scan_kept_member it enc :
  plain_name (Name it) = true → compact_value enc →
  scan_kept (in_object AtInString parseObjectKey)
    (list_ascii_of_string (Name it) ++ [dquote; ":"%char] ++ enc)
  = Some (in_object AtEndValue parseObjectValue).
Proof.
  intros Hname Henc. rewrite scan_kept_app, (scan_kept_plain _ Hname). exact Henc.
Qed.

Lemma scan_kept_more items encs :
  plain_members items encs →
  scan_kept (in_object AtEndValue parseObjectValue)
    (concat ((λ mb, ","%char :: mb) <$> zip_with member items encs))
  = Some (in_object AtEndValue parseObjectValue).
Proof.
  induction 1 as [|it enc items encs (Hname & _ & Henc) _ IH]; [done|].
  cbn [zip_with fmap list_fmap concat]. rewrite scan_kept_app.
  unfold member.
  change (scan_kept (in_object AtEndValue parseObjectValue)
            (","%char :: [dquote] ++ list_ascii_of_string (Name it) ++ [dquote; ":"%char] ++ enc))
    with (scan_kept (in_object AtInString parseObjectKey)
            (list_ascii_of_string (Name it) ++ [dquote; ":"%char] ++ enc)).
  by rewrite (scan_kept_member _ _ Hname Henc).
Qed.

(** The object text of plain members passes [compact] unchanged. *)
Lemma compact_object_text items encs :
  plain_members items encs →
  compact (object_text (zip_with member items encs)) true
  = (object_text (zip_with member items encs), None).
Proof.
  intros Hmembers. apply (compact_kept _ (mkScanner AtEndTop true [] None)); [|done].
  destruct Hmembers as [|it enc items encs (Hname & _ & Henc) Hmore]; [done|].
  cbn [zip_with object_text]. unfold member at 1.
  change (scan_kept newScanner ?bs)
    with (scan_kept (in_object AtInString parseObjectKey)
            ((list_ascii_of_string (Name it) ++ [dquote; ":"%char] ++ enc)
             ++ concat ((λ mb, ","%char :: mb) <$> zip_with member items encs) ++ ["}"%char])).
  rewrite scan_kept_app, (scan_kept_member _ _ Hname Henc). simpl.
  by rewrite scan_kept_app, (scan_kept_more _ _ Hmore).
Qed.

(** When the names of the ordered sequence are plain and the sub-schemas
encode to compact values, the container's [MarshalJSON] returns, with no
error, the object whose members are the pairs of the ordered sequence in
their order: [json.Marshal] changes nothing in what
[OrderSchemaItems.MarshalJSON] wrote. *)
Theorem MarshalJSON_plain_names srt ρ σ m items encs :
  Origin σ = Some m →
  fst (ToOrderedSchemaItems srt ρ σ) = Val items →
  plain_members items encs →
  fst (SchemaProperties.MarshalJSON srt ρ σ)
  = Val (object_text (zip_with member items encs), None).
Proof.
  intros Hm Hitems Hmembers.
  destruct (ToOrderedSchemaItems_returns srt ρ σ) as [items' Hitems'].
  rewrite Hitems' in Hitems. injection Hitems as ->.
  erewrite MarshalJSON_initialized by done. simpl. f_equal.
  unfold json.Marshal. simpl.
  rewrite (MarshalJSON_of_encodings items encs)
    by (eapply Forall2_impl; [exact Hmembers|]; by intros it enc (_ & ? & _)).
  by rewrite (compact_object_text _ _ Hmembers).
Qed.
End PlainNames.

(** ** Insertion, size and the ordered sequence *)

Section SequenceFacts.
Import OrderSchemaItems SchemaProperties.
Context {Schema : Type} `{SchemaType Schema}.
Implicit Types (σ : SchemaProperties.t Schema) (m : gmap string Schema).
Implicit Types (o : orderedmap.OrderedMap Schema) (k : string) (v : Schema).
Implicit Types (srt : sort.Sorter Schema) (ρ : range_order Schema).
Implicit Types (items : list (OrderSchemaItem Schema)).

(** The entries of the origin map as pairs, in [map_to_list] order; none
for a nil map. *)
Definition entries σ : list (OrderSchemaItem Schema) :=
  match Origin σ with
  | Some m => (λ kv, Item kv.1 kv.2) <$> map_to_list m
  | None => []
  end.

(** In a built container, inserting a name that is not there yet appends
its pair to the ordered sequence and leaves the pairs before it as they
were. *)
Theorem Set_new_appends srt ρ σ k v items :
  built σ →
  fst (ToOrderedSchemaItems srt ρ σ) = Val items →
  k ∉ Name <$> items →
  ∃ σ', Set_ k v σ = (Val (), σ')
    ∧ fst (ToOrderedSchemaItems srt ρ σ') = Val (items ++ [Item k v]).
Proof.
  intros (m & ks & -> & Hnodup & Hks)%built_coherent Hitems Hnew.
  rewrite ToOrderedSchemaItems_omap in Hitems. simpl in Hitems.
  injection Hitems as <-. unfold orderedmap.Keys in Hnew. simpl in Hnew.
  rewrite <- list_fmap_compose in Hnew.
  assert (k ∉ ks) as Hk by (by rewrite <- (list_fmap_id ks)).
  rewrite Set_initialized, (orderedmap_Set_seen _ _ _ _ Hks).
  rewrite bool_decide_eq_false_2 by done.
  eexists; split; [done|]. rewrite ToOrderedSchemaItems_omap. simpl. f_equal.
  unfold orderedmap.Keys. simpl. rewrite fmap_app. simpl. f_equal.
  - apply list_fmap_ext. intros i k' Hk'. f_equal. unfold map_index. simpl.
    rewrite lookup_insert_ne; [done|]. intros ->. apply Hk.
    by eapply list_elem_of_lookup_2.
  - unfold map_index. simpl. by rewrite lookup_insert_eq.
Qed.

(** The keys of a map, in [map_to_list] order, are a permutation of any
duplicate-free list of exactly its names. *)
Lemma keys_Permutation m (ks : list string) :
  NoDup ks → (∀ k, k ∈ ks ↔ is_Some (m !! k)) → ks ≡ₚ (map_to_list m).*1.
Proof.
  intros Hnodup Hks. apply NoDup_Permutation; [done|apply NoDup_fst_map_to_list|].
  intros k. rewrite Hks. split.
  - intros [v Hv]. apply list_elem_of_fmap. exists (k, v). split; [done|].
    by apply elem_of_map_to_list.
  - intros ([k' v] & -> & Hkv)%list_elem_of_fmap. apply elem_of_map_to_list in Hkv. eauto.
Qed.

(** For a container built by the constructor and insertions, and for a
container without insertion-order structure, the ordered sequence holds
every entry of the origin map exactly once and nothing else, and [Len]
is its length. *)
Theorem ToOrderedSchemaItems_lists_every_entry_once srt ρ σ items :
  built σ ∨ omap σ = None →
  fst (ToOrderedSchemaItems srt ρ σ) = Val items →
  items ≡ₚ entries σ ∧ fst (Len σ) = Val (length items).
Proof.
  intros Hσ Hitems.
  assert (items ≡ₚ entries σ) as Hperm.
  { destruct Hσ as [(m & ks & -> & Hnodup & Hks)%built_coherent|Hnone].
    - rewrite ToOrderedSchemaItems_omap in Hitems. simpl in Hitems.
      injection Hitems as <-. unfold orderedmap.Keys, entries. simpl.
      rewrite (keys_Permutation m ks Hnodup Hks), <- list_fmap_compose.
      apply reflexive_eq, list_fmap_ext. intros i [k v] Hkv. simpl.
      apply list_elem_of_lookup_2, elem_of_map_to_list in Hkv.
      unfold map_index. simpl. by rewrite Hkv.
    - destruct σ as [origin om]. simpl in Hnone. subst om.
      rewrite ToOrderedSchemaItems_fallback in Hitems. simpl in Hitems.
      injection Hitems as <-. rewrite sort.Sort_permutes. unfold entries. simpl.
      destruct origin as [m|]; simpl; [|done]. by rewrite (range_permutes ρ m). }
  split; [done|]. rewrite (Permutation_length Hperm). unfold entries.
  destruct σ as [[m|] om]; run_M; [|done].
  by rewrite length_fmap, length_map_to_list.
Qed.

End SequenceFacts.

(** ** The order of strings *)

Lemma compare_Lt_trans (s t u : string) :
  String.compare s t = Lt → String.compare t u = Lt → String.compare s u = Lt.
Proof.
  revert t u. induction s as [|c1 s IH]; intros [|c2 t] [|c3 u]; simpl; try done.
  unfold Ascii.compare.
  destruct (N.compare (N_of_ascii c1) (N_of_ascii c2)) eqn:H12; try done;
    destruct (N.compare (N_of_ascii c2) (N_of_ascii c3)) eqn:H23; try done;
    intros Hst Htu.
  - apply N.compare_eq_iff in H12, H23. rewrite H12, H23, N.compare_refl. by apply (IH t).
  - apply N.compare_eq_iff in H12. by rewrite H12, H23.
  - apply N.compare_eq_iff in H23. by rewrite <- H23, H12.
  - apply N.compare_lt_iff in H12. apply N.compare_lt_iff in H23.
    replace (N.compare (N_of_ascii c1) (N_of_ascii c3)) with Lt; [done|].
    symmetry. apply N.compare_lt_iff. by apply (N.lt_trans _ _ _ H12).
Qed.

Lemma ltb_transitive (s t u : string) :
  String.ltb s t = true → String.ltb t u = true → String.ltb s u = true.
Proof.
  unfold String.ltb.
  destruct (String.compare s t) eqn:Hst; try done.
  destruct (String.compare t u) eqn:Htu; try done.
  by rewrite (compare_Lt_trans s t u).
Qed.

Lemma ltb_trichotomy (s t : string) :
  String.ltb s t = true ∨ String.ltb t s = true ∨ s = t.
Proof.
  unfold String.ltb. rewrite (String.compare_antisym t s).
  destruct (String.compare s t) eqn:Hst; simpl; auto.
  right. right. by apply String.compare_eq_iff.
Qed.

(** ** Sorting with [Less] *)

Section SortOrder.
Import OrderSchemaItems.
Context {Schema : Type} `{SchemaType Schema}.
Implicit Types (items data pre post rest rpre : list (OrderSchemaItem Schema)).
Implicit Types (a b c x y : OrderSchemaItem Schema).

(** What [Less] returns for the pair [a] at its first index and the pair
[b] at its second. *)
Definition less a b : bool :=
  match Less [a; b] 0 1 with
  | Val r => r
  | Panic _ => false
  end.

Lemma Less_less items i j a b :
  items !! i = Some a → items !! j = Some b → Less items i j = Val (less a b).
Proof.
  intros Ha Hb. unfold less.
  rewrite (Less_at items i j a b Ha Hb), (Less_at [a; b] 0 1 a b eq_refl eq_refl).
  by destruct (GetString (embedded a) "x-order") as [ii [|]],
              (GetString (embedded b) "x-order") as [ij [|]].
Qed.

Lemma less_asymmetric a b : less a b = true → less b a = false.
Proof.
  unfold less.
  rewrite (Less_at [a; b] 0 1 a b eq_refl eq_refl), (Less_at [b; a] 0 1 b a eq_refl eq_refl).
  destruct (GetString (embedded a) "x-order") as [ii [|]],
           (GetString (embedded b) "x-order") as [ij [|]]; simpl; try done.
  - destruct (reflect.Int ii) as [x|], (reflect.Int ij) as [y|];
      try apply ltb_asymmetric.
    intros Hlt%Z.ltb_lt. apply Z.ltb_ge. lia.
  - apply ltb_asymmetric.
Qed.

(** [b] is not before [a]: what sorting promises of a pair [a] placed
before a pair [b]. *)
Definition not_after a b : Prop := less b a = false.

(** The slice is in order for [Less]: no pair is before one placed
earlier. *)
Definition in_order items : Prop := StronglySorted not_after items.

(** [Less] is a strict total order on the pairs of the slice: transitive,
and two pairs that are not the same pair are ordered one way or the other. *)
Definition strict_total_on items : Prop :=
  (∀ a b c, a ∈ items → b ∈ items → c ∈ items →
     less a b = true → less b c = true → less a c = true)
  ∧ (∀ a b, a ∈ items → b ∈ items → less a b = true ∨ less b a = true ∨ a = b).

(** The contract of [sort.Sort]: on a slice that [Less] orders totally
the result is in order. *)
Definition sorts (srt : sort.Sorter Schema) : Prop :=
  ∀ data, strict_total_on data → in_order (sort.Sort srt data).

(** [insertionSort] as a function on lists: [ins] moves [x] down the
prefix, given in reverse, past every pair it is before. *)
Fixpoint ins x rpre : list (OrderSchemaItem Schema) :=
  match rpre with
  | [] => [x]
  | y :: rpre' => if less x y then y :: ins x rpre' else x :: y :: rpre'
  end.

Fixpoint isort_from rpre rest : list (OrderSchemaItem Schema) :=
  match rest with
  | [] => reverse rpre
  | x :: rest' => isort_from (ins x rpre) rest'
  end.

Lemma length_ins x rpre : length (ins x rpre) = S (length rpre).
Proof.
  induction rpre as [|y rpre IH]; simpl; [done|].
  destruct (less x y); simpl; by rewrite ?IH.
Qed.

Lemma ins_Permutation x rpre : ins x rpre ≡ₚ x :: rpre.
Proof.
  induction rpre as [|y rpre IH]; simpl; [done|].
  destruct (less x y); [|done]. by rewrite IH, Permutation_swap.
Qed.

Lemma insertionSort_inner_ins pre x post :
  sort.insertionSort_inner 0 (length pre) (pre ++ x :: post)
  = Val (reverse (ins x (reverse pre)) ++ post).
Proof.
  revert x post. induction pre as [|y pre IH] using rev_ind; intros x post; [done|].
  rewrite length_app, Nat.add_1_r. cbn [sort.insertionSort_inner].
  replace (0 <? S (length pre)) with true by done.
  rewrite <- app_assoc. cbn [app].
  assert ((pre ++ y :: x :: post) !! S (length pre) = Some x) as Hx.
  { change (pre ++ y :: x :: post) with (pre ++ [y] ++ x :: post). rewrite app_assoc.
    apply list_lookup_middle. by rewrite length_app, Nat.add_1_r. }
  assert ((pre ++ y :: x :: post) !! length pre = Some y) as Hy
    by (by apply list_lookup_middle).
  rewrite (Less_less _ _ _ x y Hx Hy).
  rewrite reverse_snoc. cbn [mbind exn_bind ins]. destruct (less x y).
  - unfold Swap. rewrite (index_Val _ _ _ Hx), (index_Val _ _ _ Hy).
    cbn [mbind exn_bind mret exn_ret].
    rewrite (insert_app_r_alt pre _ (S (length pre))) by lia.
    replace (S (length pre) - length pre) with 1 by lia. cbn [insert list_insert].
    rewrite (insert_app_r_alt pre _ (length pre)) by lia.
    rewrite Nat.sub_diag. cbn [insert list_insert].
    rewrite IH, reverse_cons, <- app_assoc. done.
  - rewrite !reverse_cons, reverse_involutive, <- !app_assoc. done.
Qed.

Lemma insertionSort_outer_isort rest pre :
  sort.insertionSort_outer 0 (length rest) (length pre) (pre ++ rest)
  = Val (isort_from (reverse pre) rest).
Proof.
  revert pre. induction rest as [|x rest IH]; intros pre; simpl.
  - by rewrite app_nil_r, reverse_involutive.
  - rewrite insertionSort_inner_ins. cbn [mbind exn_bind].
    specialize (IH (reverse (ins x (reverse pre)))).
    rewrite length_reverse, length_ins, length_reverse, reverse_involutive in IH.
    exact IH.
Qed.

Lemma insertion_Sort_isort x rest : insertion_Sort (x :: rest) = isort_from [x] rest.
Proof.
  pose proof (insertionSort_outer_isort rest [x]) as Hsort.
  unfold insertion_Sort, sort.insertionSort, Len.
  replace (length (x :: rest) - (0 + 1)) with (length rest) by (simpl; lia).
  change (0 + 1) with (length [x]). change (x :: rest) with ([x] ++ rest).
  by rewrite Hsort.
Qed.

(** The prefix in reverse is in order when read backwards. *)
Definition descending rpre : Prop := StronglySorted (λ u v, less u v = false) rpre.

Lemma not_less_transitive items x y z :
  strict_total_on items → x ∈ items → y ∈ items → z ∈ items →
  less x y = false → less y z = false → less x z = false.
Proof.
  intros [Htrans Htotal] Hx Hy Hz Hxy Hyz.
  destruct (less x z) eqn:Hxz; [exfalso|done].
  destruct (Htotal x y Hx Hy) as [Hlt|[Hyx| ->]]; [congruence| |congruence].
  destruct (Htotal y z Hy Hz) as [Hlt|[Hzy| ->]]; [congruence| |congruence].
  pose proof (Htrans z y x Hz Hy Hx Hzy Hyx) as Hzx.
  apply less_asymmetric in Hzx. congruence.
Qed.

Lemma ins_descending items x rpre :
  strict_total_on items → x ∈ items → rpre ⊆ items →
  descending rpre → descending (ins x rpre).
Proof.
  intros Htotal Hx Hsub Hsorted. unfold descending in *. revert Hsub.
  induction Hsorted as [|y rpre Hsorted IH Hy]; intros Hsub; simpl.
  { repeat constructor. }
  assert (y ∈ items) as Hyin by (apply Hsub; left).
  assert (rpre ⊆ items) as Hsub' by (intros z Hz; apply Hsub; by right).
  destruct (less x y) eqn:Hxy.
  - constructor; [by apply IH|].
    rewrite Forall_forall. intros z Hz. rewrite (ins_Permutation x rpre) in Hz.
    apply elem_of_cons in Hz as [->|Hz]; [by apply less_asymmetric|].
    rewrite Forall_forall in Hy. by apply Hy.
  - constructor; [by constructor|].
    constructor; [done|]. rewrite Forall_forall in Hy |- *. intros z Hz.
    apply (not_less_transitive items x y z); auto.
Qed.

Lemma descending_reverse rpre : descending rpre → in_order (reverse rpre).
Proof.
  unfold descending, in_order. induction 1 as [|y rpre _ IH Hy]; [constructor|].
  rewrite reverse_cons. apply StronglySorted_app_2; [|done|repeat constructor].
  intros a b Ha ->%list_elem_of_singleton. rewrite elem_of_reverse in Ha.
  rewrite Forall_forall in Hy. unfold not_after. by apply Hy.
Qed.

Lemma isort_from_ordered items rpre rest :
  strict_total_on items → rpre ⊆ items → rest ⊆ items →
  descending rpre → in_order (isort_from rpre rest).
Proof.
  intros Htotal. revert rpre.
  induction rest as [|x rest IH]; intros rpre Hpre Hrest Hsorted; simpl.
  - by apply descending_reverse.
  - assert (x ∈ items) as Hx by (apply Hrest; left).
    apply IH.
    + intros z Hz. rewrite (ins_Permutation x rpre) in Hz.
      apply elem_of_cons in Hz as [->|Hz]; [done|by apply Hpre].
    + intros z Hz. apply Hrest. by right.
    + by apply (ins_descending items).
Qed.

(** [insertionSort] meets the contract of [sort.Sort]. *)
Lemma insertion_sorts : sorts insertion.
Proof.
  intros [|x rest] Htotal; simpl; [constructor|].
  rewrite insertion_Sort_isort.
  apply (isort_from_ordered (x :: rest)); [done| | |].
  - intros z ->%list_elem_of_singleton. left.
  - intros z Hz. by right.
  - repeat constructor.
Qed.

(** Two arrangements of the same pairs that are both in order for a
strict total order are the same arrangement. *)
Lemma ordered_unique items1 items2 :
  strict_total_on items1 → in_order items1 → in_order items2 → items1 ≡ₚ items2 →
  items1 = items2.
Proof.
  intros [_ Htotal] Hsorted1 Hsorted2 Hperm.
  apply (StronglySorted_unique_strong not_after); [|done..].
  intros a b Ha Hb Hab Hba. unfold not_after in *.
  assert (b ∈ items1) as Hb' by (by rewrite Hperm).
  destruct (Htotal a b Ha Hb') as [Hlt|[Hlt|]]; [congruence..|done].
Qed.

Lemma strict_total_on_Permutation items1 items2 :
  items1 ≡ₚ items2 → strict_total_on items1 → strict_total_on items2.
Proof.
  intros Hperm [Htrans Htotal]. split.
  - intros a b c Ha Hb Hc. apply Htrans; by rewrite Hperm.
  - intros a b Ha Hb. apply Htotal; by rewrite Hperm.
Qed.
End SortOrder.

(** ** The fallback order *)

Section FallbackOrder.
Import OrderSchemaItems SchemaProperties.
Context {Schema : Type} `{SchemaType Schema}.
Implicit Types (σ : SchemaProperties.t Schema) (m : gmap string Schema).
Implicit Types (srt : sort.Sorter Schema) (ρ : range_order Schema).
Implicit Types (items : list (OrderSchemaItem Schema)) (a b : OrderSchemaItem Schema).

Lemma fallback_Permutation srt ρ origin :
  sort.Sort srt ((λ kv, Item kv.1 kv.2) <$> range_map ρ origin) ≡ₚ entries (mk origin None).
Proof.
  rewrite sort.Sort_permutes. unfold entries. simpl.
  destruct origin as [m|]; simpl; [|done]. by rewrite (range_permutes ρ m).
Qed.

Lemma fallback_ordered srt ρ origin :
  sorts srt → strict_total_on (entries (mk origin None)) →
  in_order (sort.Sort srt ((λ kv, Item kv.1 kv.2) <$> range_map ρ origin)).
Proof.
  intros Hsorts Htotal. apply Hsorts.
  apply (strict_total_on_Permutation (entries (mk origin None))); [|done].
  rewrite <- (fallback_Permutation srt ρ origin). by rewrite sort.Sort_permutes.
Qed.

(** Without insertion-order structure, when [Less] orders the entries of
the origin map totally, the ordered sequence and the text of
[MarshalJSON] are the same whatever the order in which the runtime visits
the map and whatever the sorting algorithm that meets [sort.Sort]'s
contract. *)
Theorem fallback_independent_of_range srt1 srt2 ρ1 ρ2 origin :
  sorts srt1 → sorts srt2 → strict_total_on (entries (mk origin None)) →
  ToOrderedSchemaItems srt1 ρ1 (mk origin None) = ToOrderedSchemaItems srt2 ρ2 (mk origin None)
  ∧ MarshalJSON srt1 ρ1 (mk origin None) = MarshalJSON srt2 ρ2 (mk origin None).
Proof.
  intros Hsorts1 Hsorts2 Htotal.
  assert (ToOrderedSchemaItems srt1 ρ1 (mk origin None)
          = ToOrderedSchemaItems srt2 ρ2 (mk origin None)) as Hitems.
  { rewrite !ToOrderedSchemaItems_fallback. do 2 f_equal.
    apply ordered_unique; [|by apply fallback_ordered..|].
    - apply (strict_total_on_Permutation (entries (mk origin None))); [|done].
      by rewrite fallback_Permutation.
    - by rewrite !fallback_Permutation. }
  split; [done|].
  destruct origin as [m|]; [|by rewrite !MarshalJSON_nil].
  destruct (ToOrderedSchemaItems_returns srt1 ρ1 (mk (Some m) None)) as [items Hitems1].
  assert (ToOrderedSchemaItems srt2 ρ2 (mk (Some m) None) = (Val items, mk (Some m) None))
    as Hitems2 by congruence.
  by rewrite (MarshalJSON_initialized srt1 ρ1 (mk (Some m) None) m items eq_refl Hitems1),
             (MarshalJSON_initialized srt2 ρ2 (mk (Some m) None) m items eq_refl Hitems2).
Qed.

Lemma elem_of_entries m a :
  a ∈ entries (mk (Some m) None) ↔ m !! Name a = Some (embedded a).
Proof.
  unfold entries. simpl. rewrite list_elem_of_fmap. split.
  - intros ([k v] & -> & Hkv). by apply elem_of_map_to_list in Hkv.
  - intros Ha. exists (Name a, embedded a). split; [by destruct a|].
    by apply elem_of_map_to_list.
Qed.

Lemma less_unordered a b :
  (GetString (embedded a) "x-order").2 = false →
  (GetString (embedded b) "x-order").2 = false →
  less a b = String.ltb (Name a) (Name b).
Proof.
  intros Ha Hb. unfold less. rewrite (Less_at [a; b] 0 1 a b eq_refl eq_refl).
  destruct (GetString (embedded a) "x-order") as [ii oki],
           (GetString (embedded b) "x-order") as [ij okj].
  simpl in *. by subst.
Qed.

(** On entries none of which has an ordering value, [Less] is the strict
order of the names, and the names of a map differ. *)
Lemma unordered_strict_total m :
  (∀ k v, m !! k = Some v → (GetString v "x-order").2 = false) →
  strict_total_on (entries (mk (Some m) None)).
Proof.
  intros Hunordered.
  assert (∀ a, a ∈ entries (mk (Some m) None) →
            (GetString (embedded a) "x-order").2 = false) as Hno.
  { intros a Ha%elem_of_entries. by eapply Hunordered. }
  split.
  - intros a b c Ha Hb Hc. rewrite !less_unordered by auto. apply ltb_transitive.
  - intros a b Ha Hb. rewrite !less_unordered by auto.
    destruct (ltb_trichotomy (Name a) (Name b)) as [?|[?|Hname]]; [auto..|].
    right. right. apply elem_of_entries in Ha, Hb. rewrite Hname in Ha.
    destruct a, b. simpl in *. congruence.
Qed.

(** Without insertion-order structure, when no sub-schema has an
ordering value, the ordered sequence holds the entries of the origin map
with their names in strictly ascending lexicographic order. *)
Theorem fallback_sorts_by_name srt ρ m :
  sorts srt →
  (∀ k v, m !! k = Some v → (GetString v "x-order").2 = false) →
  ∃ items, ToOrderedSchemaItems srt ρ (mk (Some m) None) = (Val items, mk (Some m) None)
    ∧ items ≡ₚ entries (mk (Some m) None)
    ∧ StronglySorted (λ a b, String.ltb (Name a) (Name b) = true) items.
Proof.
  intros Hsorts Hunordered.
  assert (∀ a, a ∈ entries (mk (Some m) None) →
            (GetString (embedded a) "x-order").2 = false) as Hno.
  { intros a Ha%elem_of_entries. by eapply Hunordered. }
  pose proof (unordered_strict_total m Hunordered) as Htotal.
  rewrite ToOrderedSchemaItems_fallback. eexists. split; [done|].
  pose proof (fallback_Permutation srt ρ (Some m)) as Hperm.
  pose proof (fallback_ordered srt ρ (Some m) Hsorts Htotal) as Hordered.
  split; [done|].
  assert (NoDup (Name <$> sort.Sort srt ((λ kv, Item kv.1 kv.2) <$> range_map ρ (Some m))))
    as Hnodup.
  { rewrite Hperm. unfold entries. simpl. rewrite <- list_fmap_compose.
    apply (NoDup_fst_map_to_list m). }
  assert (∀ a, a ∈ sort.Sort srt ((λ kv, Item kv.1 kv.2) <$> range_map ρ (Some m)) →
            (GetString (embedded a) "x-order").2 = false) as Hno'.
  { intros a Ha. apply Hno. by rewrite <- Hperm. }
  clear Hperm. unfold in_order in Hordered.
  induction Hordered as [|x l Hl IH Hx]; [constructor|].
  rewrite fmap_cons in Hnodup. apply NoDup_cons in Hnodup as [Hxl Hnodup].
  constructor.
  - apply IH; [done|]. intros a Ha. apply Hno'. by right.
  - rewrite Forall_forall in Hx |- *. intros z Hz.
    pose proof (Hx z Hz) as Hzx. unfold not_after in Hzx.
    rewrite less_unordered in Hzx by (apply Hno'; first [by right|left]).
    destruct (ltb_trichotomy (Name x) (Name z)) as [?|[?|Hname]]; [done|congruence|].
    exfalso. apply Hxl. rewrite Hname. apply list_elem_of_fmap. eauto.
Qed.
(** The integer that [Less] reads from the ordering value of a pair. *)
Definition order_int a : option Z :=
  match GetString (embedded a) "x-order" with
  | (v, true) =>
    match reflect.Int v with
    | Val n => Some n
    | Panic _ => None
    end
  | (_, false) => None
  end.

Lemma less_order_int a b x y :
  order_int a = Some x → order_int b = Some y → less a b = (x <? y)%Z.
Proof.
  unfold order_int, less. rewrite (Less_at [a; b] 0 1 a b eq_refl eq_refl).
  destruct (GetString (embedded a) "x-order") as [ii [|]]; [|done].
  destruct (GetString (embedded b) "x-order") as [ij [|]];
    destruct (reflect.Int ii) as [x'|]; try done;
    destruct (reflect.Int ij) as [y'|]; try done.
  by intros [= ->] [= ->].
Qed.

(** Without insertion-order structure, when every sub-schema has an
integer ordering value and no two have the same, the ordered sequence
holds the entries of the origin map in strictly ascending order of that
integer. *)
Theorem fallback_sorts_by_integer srt ρ m (key : OrderSchemaItem Schema → Z) :
  sorts srt →
  (∀ a, a ∈ entries (mk (Some m) None) → order_int a = Some (key a)) →
  (∀ a b, a ∈ entries (mk (Some m) None) → b ∈ entries (mk (Some m) None) →
          key a = key b → a = b) →
  ∃ items, ToOrderedSchemaItems srt ρ (mk (Some m) None) = (Val items, mk (Some m) None)
    ∧ items ≡ₚ entries (mk (Some m) None)
    ∧ StronglySorted (λ a b, (key a < key b)%Z) items.
Proof.
  intros Hsorts Hkey Hinj.
  assert (strict_total_on (entries (mk (Some m) None))) as Htotal.
  { split.
    - intros a b c Ha Hb Hc.
      rewrite (less_order_int a b _ _ (Hkey a Ha) (Hkey b Hb)),
              (less_order_int b c _ _ (Hkey b Hb) (Hkey c Hc)),
              (less_order_int a c _ _ (Hkey a Ha) (Hkey c Hc)).
      rewrite !Z.ltb_lt. lia.
    - intros a b Ha Hb.
      rewrite (less_order_int a b _ _ (Hkey a Ha) (Hkey b Hb)),
              (less_order_int b a _ _ (Hkey b Hb) (Hkey a Ha)).
      rewrite !Z.ltb_lt.
      destruct (Z.lt_trichotomy (key a) (key b)) as [?|[?|?]]; auto. }
  rewrite ToOrderedSchemaItems_fallback. eexists. split; [done|].
  pose proof (fallback_Permutation srt ρ (Some m)) as Hperm.
  pose proof (fallback_ordered srt ρ (Some m) Hsorts Htotal) as Hordered.
  split; [done|].
  assert (NoDup (sort.Sort srt ((λ kv, Item kv.1 kv.2) <$> range_map ρ (Some m))))
    as Hnodup.
  { rewrite Hperm. unfold entries. simpl.
    apply (NoDup_fmap_1 Name). rewrite <- list_fmap_compose.
    apply (NoDup_fst_map_to_list m). }
  assert (∀ a, a ∈ sort.Sort srt ((λ kv, Item kv.1 kv.2) <$> range_map ρ (Some m)) →
            a ∈ entries (mk (Some m) None)) as Hin.
  { intros a Ha. by rewrite <- Hperm. }
  clear Hperm. unfold in_order in Hordered.
  induction Hordered as [|x l Hl IH Hx]; [constructor|].
  apply NoDup_cons in Hnodup as [Hxl Hnodup].
  constructor.
  - apply IH; [done|]. intros a Ha. apply Hin. by right.
  - rewrite Forall_forall in Hx |- *. intros z Hz.
    pose proof (Hx z Hz) as Hzx. unfold not_after in Hzx.
    assert (x ∈ entries (mk (Some m) None)) as Hxin by (apply Hin; left).
    assert (z ∈ entries (mk (Some m) None)) as Hzin by (apply Hin; by right).
    rewrite (less_order_int z x _ _ (Hkey z Hzin) (Hkey x Hxin)) in Hzx.
    apply Z.ltb_ge in Hzx.
    destruct (decide (key x = key z)) as [Heq|Hne]; [|lia].
    exfalso. apply Hxl. by rewrite (Hinj x z Hxin Hzin Heq).
Qed.
End FallbackOrder.

(** ** The further properties on concrete containers *)

(** A container without insertion-order structure and without ordering
values: the names b and a. *)
Definition Scenario_unordered : SchemaProperties.t Sample.Schema :=
  mk (Some (<["b" := plain]> (<["a" := plain]> ∅))) None.

Lemma Scenario_unordered_no_values k v :
  (<["b" := plain]> (<["a" := plain]> (∅ : gmap string Sample.Schema))) !! k = Some v →
  (GetString v "x-order").2 = false.
Proof.
  intros Hkv. apply lookup_insert_Some in Hkv as [[_ <-]|[_ Hkv]]; [done|].
  apply lookup_insert_Some in Hkv as [[_ <-]|[_ Hkv]]; [done|].
  by rewrite lookup_empty in Hkv.
Qed.

(** [Less_panics_only_out_of_range] on the two pairs of the mixed scenario. *)
Lemma Less_panics_only_out_of_range_witness :
  (∃ r, Less [x10; y5] 0 1 = Val r)
  ∧ Less [x10; y5] 0 2 = Panic "index out of range".
Proof.
  pose proof (Less_panics_only_out_of_range [x10; y5] 0 1) as [Hin _].
  pose proof (Less_panics_only_out_of_range [x10; y5] 0 2) as [_ Hout].
  split.
  - apply Hin; simpl; lia.
  - apply Hout. right. simpl. lia.
Defined.

(** [Less_asymmetric] on the two pairs of the mixed scenario. *)
Lemma Less_asymmetric_witness :
  Less [x10; y5] 1 1 = Val false
  ∧ (Less [x10; y5] 1 0 = Val true → Less [x10; y5] 0 1 = Val false).
Proof. exact (Less_asymmetric [x10; y5] 1 0 y5 x10 eq_refl eq_refl). Defined.

(** [Swap_exchanges] on the two pairs of the mixed scenario. *)
Lemma Swap_exchanges_witness :
  ∃ items', Swap [x10; y5] 0 1 = Val items'
    ∧ items' !! 0 = Some y5 ∧ items' !! 1 = Some x10
    ∧ (∀ k, k ≠ 0 → k ≠ 1 → items' !! k = [x10; y5] !! k)
    ∧ items' ≡ₚ [x10; y5]
    ∧ Swap items' 0 1 = Val [x10; y5].
Proof.
  apply (proj1 (Swap_exchanges [x10; y5] 0 1)); simpl; lia.
Defined.

(** [MarshalJSON_plain_names] on [filled]. *)
Lemma MarshalJSON_plain_names_witness :
  fst (SchemaProperties.MarshalJSON insertion Sample.forwards filled)
  = Val (json_text "{'a':{'x-order':1},'b':{}}", None).
Proof.
  refine (MarshalJSON_plain_names insertion Sample.forwards filled
            (<["b" := plain]> (<["a" := ordered (VInt 1)]> ∅))
            [Item "a" (ordered (VInt 1)); Item "b" plain]
            [json_text "{'x-order':1}"; json_text "{}"] eq_refl eq_refl _).
  repeat constructor.
Defined.

(** [Set_new_appends] on [filled] and the new name c. *)
Lemma Set_new_appends_witness :
  ∃ σ', Set_ "c" plain filled = (Val (), σ')
    ∧ fst (ToOrderedSchemaItems insertion Sample.forwards σ')
      = Val ([Item "a" (ordered (VInt 1)); Item "b" plain] ++ [Item "c" plain]).
Proof.
  refine (Set_new_appends insertion Sample.forwards filled "c" plain
            [Item "a" (ordered (VInt 1)); Item "b" plain]
            (Set_all_New_built _) eq_refl _).
  vm_compute. intros Hin. repeat (apply elem_of_cons in Hin as [[=]|Hin]).
  by apply elem_of_nil in Hin.
Defined.

(** [ToOrderedSchemaItems_lists_every_entry_once] on [filled]. *)
Lemma ToOrderedSchemaItems_lists_every_entry_once_witness :
  [Item "a" (ordered (VInt 1)); Item "b" plain] ≡ₚ entries filled
  ∧ fst (SchemaProperties.Len filled) = Val 2.
Proof.
  exact (ToOrderedSchemaItems_lists_every_entry_once insertion Sample.forwards filled
           [Item "a" (ordered (VInt 1)); Item "b" plain]
           (or_introl (Set_all_New_built _)) eq_refl).
Defined.

(** [fallback_independent_of_range] on [Scenario_unordered], visited forwards
and backwards. *)
Lemma fallback_independent_of_range_witness :
  ToOrderedSchemaItems insertion Sample.forwards Scenario_unordered
  = ToOrderedSchemaItems insertion Sample.backwards Scenario_unordered
  ∧ SchemaProperties.MarshalJSON insertion Sample.forwards Scenario_unordered
    = SchemaProperties.MarshalJSON insertion Sample.backwards Scenario_unordered.
Proof.
  exact (fallback_independent_of_range insertion insertion Sample.forwards Sample.backwards
           (Some (<["b" := plain]> (<["a" := plain]> ∅)))
           insertion_sorts insertion_sorts
           (unordered_strict_total _ Scenario_unordered_no_values)).
Defined.

(** [fallback_sorts_by_name] on [Scenario_unordered]. *)
Lemma fallback_sorts_by_name_witness :
  ∃ items,
    ToOrderedSchemaItems insertion Sample.forwards Scenario_unordered
    = (Val items, Scenario_unordered)
    ∧ items ≡ₚ entries Scenario_unordered
    ∧ StronglySorted (λ a b, String.ltb (Name a) (Name b) = true) items.
Proof.
  exact (fallback_sorts_by_name insertion Sample.forwards _ insertion_sorts
           Scenario_unordered_no_values).
Defined.

(** A container without insertion-order structure whose entries a and c
have the ordering values 2 and 1. *)
Definition Scenario_integers : SchemaProperties.t Sample.Schema :=
  mk (Some (<["a" := Scenario.ordered (VInt 2)]> (<["c" := Scenario.ordered (VInt 1)]> ∅))) None.

Definition Scenario_key (a : OrderSchemaItem Sample.Schema) : Z :=
  default 0%Z (order_int a).

Lemma Scenario_integers_entries a :
  a ∈ entries Scenario_integers →
  a = Item "a" (Scenario.ordered (VInt 2)) ∨ a = Item "c" (Scenario.ordered (VInt 1)).
Proof.
  intros Ha%elem_of_entries.
  apply lookup_insert_Some in Ha as [[Hname Hv]|[_ Ha]].
  { left. destruct a. simpl in *. congruence. }
  apply lookup_insert_Some in Ha as [[Hname Hv]|[_ Ha]].
  { right. destruct a. simpl in *. congruence. }
  by rewrite lookup_empty in Ha.
Qed.

(** [fallback_sorts_by_integer] on [Scenario_integers]. *)
Lemma fallback_sorts_by_integer_witness :
  ∃ items,
    ToOrderedSchemaItems insertion Sample.forwards Scenario_integers
    = (Val items, Scenario_integers)
    ∧ items ≡ₚ entries Scenario_integers
    ∧ StronglySorted (λ a b, (Scenario_key a < Scenario_key b)%Z) items.
Proof.
  refine (fallback_sorts_by_integer insertion Sample.forwards _ Scenario_key
            insertion_sorts _ _).
  - intros a [->| ->]%Scenario_integers_entries; reflexivity.
  - intros a b [->| ->]%Scenario_integers_entries [->| ->]%Scenario_integers_entries;
      vm_compute; congruence.
Defined.
